(** * The yodk tokenizer ([parser/tokenizer.go]) and its specification

    A shallow embedding of the tokenizer of the yodk parser, followed by the
    properties its specification states about it.

    - [GoRuntime]: the pieces of Go the tokenizer relies on: machine
      integers, slice expressions that panic out of range, the conversion
      [string(byte)], [strings.ToLower], [bytes.HasPrefix];
    - [Regexp]: the fragment of Go's [regexp] syntax the five package-level
      patterns use, with leftmost-first (backtracking priority) matching;
    - the types and methods of [tokenizer.go], written in a state-and-panic
      monad over the [Tokenizer] struct; from [Load] on, inside a section
      whose variable stands for the Unicode path of [strings.ToLower];
    - the vocabulary of the statements, the facts about the patterns and the
      recognizers, and the properties themselves, one theorem each. *)

From Stdlib Require Import Strings.Byte Strings.String.
From Stdlib Require Import List ZArith Bool Lia Arith.
From Stdlib Require Import DecimalString DecimalZ.
Import ListNotations.

(* ===================================================================== *)
(** ** Go runtime *)
(* ===================================================================== *)

Module GoRuntime.

(** A Go [string] or [[]byte] is a sequence of bytes. *)
Abbreviation bytes := (list byte).

(** A Go string literal, as its bytes. *)
Definition lit (s : string) : bytes := list_byte_of_string s.

(** The bytes the tokenizer names: line feed, tab, carriage return, space,
    double quote and backslash. *)
Definition newline : byte := x0a.
Definition tab : byte := x09.
Definition carriage_return : byte := x0d.
Definition space : byte := x20.
Definition quote : byte := x22.
Definition backslash : byte := x5c.

(** [int] is a signed 64-bit integer (amd64, arm64); arithmetic wraps. *)
Definition int_min : Z := - 2 ^ 63.
Definition int_max : Z := 2 ^ 63 - 1.
Definition wrap (z : Z) : Z := (z + 2 ^ 63) mod 2 ^ 64 - 2 ^ 63.
Definition int_add (a b : Z) : Z := wrap (a + b).
Definition int_sub (a b : Z) : Z := wrap (a - b).

(** The verb [%d] of [fmt.Sprintf] on an [int]: its decimal numeral, with a
    minus sign before it when it is negative. *)
Definition format_int (z : Z) : bytes :=
  lit (NilEmpty.string_of_int (Z.to_int z)).

(** Outcome of a Go computation: a value, or a run-time panic. *)
Inductive result (A : Type) : Type :=
| Ok (a : A)
| Panic.
Arguments Ok {A} a.
Arguments Panic {A}.

(** [s[lo:]] : panics unless [lo <= len(s)]. *)
Definition slice_from (s : bytes) (lo : nat) : result bytes :=
  if lo <=? length s then Ok (skipn lo s) else Panic.

(** [s[lo:hi]] : panics unless [lo <= hi <= len(s)] (the capacity of the
    slice is taken to be its length, so the model panics at least as often
    as Go does). *)
Definition slice (s : bytes) (lo hi : nat) : result bytes :=
  if (lo <=? hi) && (hi <=? length s) then Ok (firstn (hi - lo) (skipn lo s))
  else Panic.

(** [s[i]] : panics unless [i < len(s)]. *)
Definition index (s : bytes) (i : nat) : result byte :=
  match nth_error s i with
  | Some b => Ok b
  | None => Panic
  end.

(** [bytes.HasPrefix(s, prefix)]. *)
Fixpoint HasPrefix (s prefix : bytes) {struct prefix} : bool :=
  match prefix with
  | [] => true
  | p :: prefix' =>
      match s with
      | [] => false
      | b :: s' => Byte.eqb b p && HasPrefix s' prefix'
      end
  end.

Definition byte_of_N (n : N) : byte :=
  match Byte.of_N n with
  | Some b => b
  | None => x00
  end.

(** [string(b)] for a byte [b]: the conversion of an integer to a string
    yields the UTF-8 encoding of the code point [b], which takes two bytes
    from 0x80 on. *)
Definition string_of_byte (b : byte) : bytes :=
  let n := Byte.to_N b in
  if (n <? 128)%N then [b]
  else [byte_of_N (192 + n / 64); byte_of_N (128 + n mod 64)].

Definition is_upper (b : byte) : bool :=
  let n := Byte.to_N b in (65 <=? n)%N && (n <=? 90)%N.

Definition is_ascii (b : byte) : bool := (Byte.to_N b <? 128)%N.

Definition lower_byte (b : byte) : byte :=
  if is_upper b then byte_of_N (Byte.to_N b + 32) else b.

(** [strings.ToLower(s)]: when every byte of [s] is below 0x80 Go maps
    'A'..'Z' to 'a'..'z' byte by byte.  For other inputs it maps the runes
    of [s] through [unicode.ToLower]: [unicode_ToLower] stands for that
    path, which is [unicode_path] below, for the lower-case table of the
    [unicode] package. *)
Definition ToLower (unicode_ToLower : bytes -> bytes) (s : bytes) : bytes :=
  if forallb is_ascii s then map lower_byte s else unicode_ToLower s.

(** A stand-in for the Unicode path where a statement is evaluated on an
    ASCII input, which never reaches it. *)
Definition no_unicode (s : bytes) : bytes := s.

(** *** UTF-8 and the Unicode path of [strings.ToLower] *)

(** [utf8.RuneError], the rune that stands for a byte that begins no valid
    encoding. *)
Definition RuneError : N := 65533.

Definition in_range (lo hi : N) (b : byte) : bool :=
  ((lo <=? Byte.to_N b) && (Byte.to_N b <=? hi))%N.

(** The six low bits of a continuation byte. *)
Definition low_bits (b : byte) : N := Byte.to_N b - 128.

(** [utf8.DecodeRune(s)]: the rune at the head of [s] and its width in
    bytes.  A first byte from 0xC2 to 0xF4 asks for one to three
    continuation bytes (0x80 to 0xBF), the first of them in a narrower range
    after 0xE0, 0xED, 0xF0 and 0xF4, which excludes the encodings that are
    too long, the surrogates and the runes above U+10FFFF.  Anything else is
    [RuneError] with width 1, and the empty text is [RuneError] with
    width 0. *)
Definition DecodeRune (s : bytes) : N * nat :=
  match s with
  | [] => (RuneError, 0%nat)
  | b0 :: s1 =>
      let n0 := Byte.to_N b0 in
      if (n0 <? 128)%N then (n0, 1%nat)
      else if in_range 194 223 b0 then
        match s1 with
        | b1 :: _ =>
            if in_range 128 191 b1
            then (((n0 - 192) * 64 + low_bits b1)%N, 2%nat)
            else (RuneError, 1%nat)
        | _ => (RuneError, 1%nat)
        end
      else if in_range 224 239 b0 then
        match s1 with
        | b1 :: b2 :: _ =>
            if in_range (if (n0 =? 224)%N then 160 else 128)
                        (if (n0 =? 237)%N then 159 else 191) b1
               && in_range 128 191 b2
            then (((n0 - 224) * 4096 + low_bits b1 * 64 + low_bits b2)%N,
                  3%nat)
            else (RuneError, 1%nat)
        | _ => (RuneError, 1%nat)
        end
      else if in_range 240 244 b0 then
        match s1 with
        | b1 :: b2 :: b3 :: _ =>
            if in_range (if (n0 =? 240)%N then 144 else 128)
                        (if (n0 =? 244)%N then 143 else 191) b1
               && in_range 128 191 b2 && in_range 128 191 b3
            then (((n0 - 240) * 262144 + low_bits b1 * 4096
                   + low_bits b2 * 64 + low_bits b3)%N, 4%nat)
            else (RuneError, 1%nat)
        | _ => (RuneError, 1%nat)
        end
      else (RuneError, 1%nat)
  end.

(** The runes a [range] loop over the string [s] yields: [DecodeRune] at
    each position, one byte further after an invalid byte.  Every step
    takes at least one byte, so [length s] steps exhaust [s]. *)
Fixpoint runes_from (steps : nat) (s : bytes) : list N :=
  match steps, s with
  | S steps', _ :: _ =>
      fst (DecodeRune s) :: runes_from steps' (skipn (snd (DecodeRune s)) s)
  | _, _ => []
  end.

Definition runes (s : bytes) : list N := runes_from (length s) s.

(** [utf8.AppendRune]: the UTF-8 encoding of the rune [r]; a surrogate and a
    rune above U+10FFFF are encoded as [RuneError]. *)
Definition EncodeRune (r : N) : bytes :=
  if (r <=? 127)%N then [byte_of_N r]
  else if (r <=? 2047)%N then
    [byte_of_N (192 + r / 64); byte_of_N (128 + r mod 64)]
  else
    let r := if (1114111 <? r)%N || ((55296 <=? r) && (r <=? 57343))%N
             then RuneError else r in
    if (r <=? 65535)%N then
      [byte_of_N (224 + r / 4096); byte_of_N (128 + (r / 64) mod 64);
       byte_of_N (128 + r mod 64)]
    else
      [byte_of_N (240 + r / 262144); byte_of_N (128 + (r / 4096) mod 64);
       byte_of_N (128 + (r / 64) mod 64); byte_of_N (128 + r mod 64)].

(** [unicode.ToLower(r)]: up to [unicode.MaxASCII] the capital letters are
    moved to the small letters and the other runes are kept; above, the
    rune is looked up in the case tables of the [unicode] package, which
    are not part of this repository: [lower_case] stands for
    [unicode.To(unicode.LowerCase, r)]. *)
Definition unicode_ToLower_rune (lower_case : N -> N) (r : N) : N :=
  if (r <=? 127)%N then
    if ((65 <=? r) && (r <=? 90))%N then (r + 32)%N else r
  else lower_case r.

(** [strings.Map(mapping, s)] for a mapping that drops no rune: the
    encodings of the images of the runes of [s].  (A rune the mapping keeps
    is copied as it stands in [s], which is its encoding, [DecodeRune]
    accepting no other; an invalid byte is the rune [RuneError] and is
    written as the encoding of its image.) *)
Definition Map (mapping : N -> N) (s : bytes) : bytes :=
  flat_map (fun r => EncodeRune (mapping r)) (runes s).

(** The Unicode path of [strings.ToLower]. *)
Definition unicode_path (lower_case : N -> N) (s : bytes) : bytes :=
  Map (unicode_ToLower_rune lower_case) s.

End GoRuntime.
Import GoRuntime.

(* ===================================================================== *)
(** ** Regular expressions *)
(* ===================================================================== *)

Module Regexp.

(** The syntax the patterns of [tokenizer.go] are written in.  Repetition
    is only ever applied to a character class there. *)
Inductive regexp : Type :=
| BeginText                        (* ^     *)
| WordBoundary                     (* \b    *)
| Literal (l : bytes)              (* abc   *)
| Star (c : byte -> bool)          (* [c]*  *)
| Plus (c : byte -> bool)          (* [c]+  *)
| Quest (r : regexp)               (* r?    *)
| Concat (r1 r2 : regexp)          (* r1r2  *)
| Alternate (r1 r2 : regexp)       (* r1|r2 *)
| Capture (r : regexp).            (* (r)   *)

(** [\w] of RE2: ASCII letters, digits and underscore. *)
Definition is_digit (b : byte) : bool :=
  let n := Byte.to_N b in (48 <=? n)%N && (n <=? 57)%N.
Definition is_letter (b : byte) : bool :=
  let n := Byte.to_N b in
  ((97 <=? n)%N && (n <=? 122)%N) || ((65 <=? n)%N && (n <=? 90)%N).
Definition is_word (b : byte) : bool :=
  is_letter b || is_digit b || Byte.eqb b "_".

Definition is_word_at (o : option byte) : bool :=
  match o with
  | Some b => is_word b
  | None => false
  end.

(** One way of matching at the current position: the text consumed and the
    texts of the capture groups, in the order of their opening parentheses. *)
Definition submatch : Type := bytes * list bytes.

(** Greedy repetition of a class: every prefix of the longest run, the
    longest first. *)
Fixpoint star (c : byte -> bool) (s : bytes) : list bytes :=
  match s with
  | b :: s' => if c b then map (cons b) (star c s') ++ [[]] else [[]]
  | [] => [[]]
  end.

Definition plus (c : byte -> bool) (s : bytes) : list bytes :=
  match s with
  | b :: s' => if c b then map (cons b) (star c s') else []
  | [] => []
  end.

Definition no_groups (l : list bytes) : list submatch :=
  map (fun m => (m, [])) l.

(** [run r prev s]: all the ways [r] matches a prefix of [s], in the order
    a backtracking matcher tries them (greedy operators prefer more, the
    left alternative comes first).  [prev] is the byte before the current
    position, [None] at the beginning of the text. *)
Fixpoint run (r : regexp) (prev : option byte) (s : bytes) : list submatch :=
  match r with
  | BeginText =>
      match prev with
      | None => [([], [])]
      | Some _ => []
      end
  | WordBoundary =>
      if xorb (is_word_at prev) (is_word_at (hd_error s)) then [([], [])]
      else []
  | Literal l => if HasPrefix s l then [(l, [])] else []
  | Star c => no_groups (star c s)
  | Plus c => no_groups (plus c s)
  | Quest r1 => run r1 prev s ++ [([], [])]
  | Concat r1 r2 =>
      flat_map
        (fun m1 =>
           map (fun m2 => (fst m1 ++ fst m2, snd m1 ++ snd m2))
               (run r2 (last (map Some (fst m1)) prev)
                    (skipn (length (fst m1)) s)))
        (run r1 prev s)
  | Alternate r1 r2 => run r1 prev s ++ run r2 prev s
  | Capture r1 => map (fun m => (fst m, fst m :: snd m)) (run r1 prev s)
  end.

(** The leftmost match, and at that position the first one in priority
    order: the match Go's [regexp] reports. *)
Fixpoint find_from (r : regexp) (prev : option byte) (s : bytes)
  : option submatch :=
  match run r prev s with
  | m :: _ => Some m
  | [] =>
      match s with
      | [] => None
      | b :: s' => find_from r (Some b) s'
      end
  end.

(** [re.Find(b)]: the text of the leftmost match, [nil] when there is none. *)
Definition Find (r : regexp) (b : bytes) : option bytes :=
  option_map fst (find_from r None b).

(** [re.FindSubmatch(b)]: the text of the leftmost match followed by the
    texts of its groups. *)
Definition FindSubmatch (r : regexp) (b : bytes) : option (list bytes) :=
  option_map (fun m => fst m :: snd m) (find_from r None b).

(** Lower bound on the length of any match. *)
Fixpoint min_len (r : regexp) : nat :=
  match r with
  | BeginText | WordBoundary | Star _ | Quest _ => 0
  | Literal l => length l
  | Plus _ => 1
  | Concat r1 r2 => min_len r1 + min_len r2
  | Alternate r1 r2 => Nat.min (min_len r1) (min_len r2)
  | Capture r1 => min_len r1
  end.

(** A sequence [r1 r2 ... rn] and a choice [r1|r2|...|rn]. *)
Fixpoint Seq (l : list regexp) : regexp :=
  match l with
  | [] => Literal []
  | [r] => r
  | r :: l' => Concat r (Seq l')
  end.

Fixpoint Alt (l : list regexp) : regexp :=
  match l with
  | [] => Literal []
  | [r] => r
  | r :: l' => Alternate r (Alt l')
  end.

End Regexp.
Import Regexp.

(* ===================================================================== *)
(** ** The tokenizer *)
(* ===================================================================== *)

Local Open Scope string_scope.
Local Open Scope list_scope.
Local Open Scope Z_scope.

(** Defines the different types a token can be. *)
Definition TypeID : string := "ID".
Definition TypeNumber : string := "Number".
Definition TypeString : string := "String".
Definition TypeKeyword : string := "Keyword".
Definition TypeSymbol : string := "Symbol".
Definition TypeNewline : string := "Newline".
Definition TypeEOF : string := "EOF".
Definition TypeComment : string := "Comment".
Definition TypeWhitespace : string := "Whitespace".
Definition TypeUnknown : string := "Unknown".

(** Position represents the starting-position of a token in the
    source-code. *)
Record Position : Type := NewPosition {
  Line : Z;
  Coloumn : Z
}.

(** [Position.String]: [fmt.Sprintf] with the format
    [Line: %d, Coloumn: %d]. *)
Definition Position_String (p : Position) : bytes :=
  lit "Line: " ++ format_int (Line p)
    ++ lit ", Coloumn: " ++ format_int (Coloumn p).

(** Add creates a new position from the old one and adds the given amount
    of coloumns. *)
Definition Position_Add (p : Position) (col : Z) : Position :=
  {| Line := Line p; Coloumn := int_add (Coloumn p) col |}.

(** Sub creates a new position from the old one and substracts the given
    amount of coloumns. *)
Definition Position_Sub (p : Position) (col : Z) : Position :=
  {| Line := Line p; Coloumn := int_sub (Coloumn p) col |}.

Definition symbols : list bytes :=
  map lit ["++"; "--"; ">="; "<="; "!="; "=="; "=="; "+="; "-="; "*="; "/=";
           "%="; "="; ">"; "<"; "+"; "-"; "*"; "/"; "^"; "%"; ","; "("; ")"].

(** The words of the alternation inside [keywordRegex], in its order. *)
Definition keywords : list bytes :=
  map lit ["if"; "else"; "end"; "then"; "goto"; "and"; "or"; "not"].

(** The pattern [^\b(if|else|end|then|goto|and|or|not)\b]. *)
Definition keywordRegex : regexp :=
  Seq [BeginText; WordBoundary; Capture (Alt (map Literal keywords));
       WordBoundary].

(** The pattern [^:?[a-zA-Z]+] followed by [[a-zA-Z0-9_]] repeated. *)
Definition identifierRegex : regexp :=
  Seq [BeginText; Quest (Literal (lit ":")); Plus is_letter; Star is_word].

(** The pattern [^[0-9]+(\.[0-9]+)?]. *)
Definition numberRegex : regexp :=
  Seq [BeginText; Plus is_digit;
       Quest (Capture (Seq [Literal (lit "."); Plus is_digit]))].

(** The classes [[ \t]], [[^\n]] and [[ \t\r]]. *)
Definition is_blank (b : byte) : bool :=
  Byte.eqb b space || Byte.eqb b tab.
Definition not_newline (b : byte) : bool := negb (Byte.eqb b newline).
Definition is_space (b : byte) : bool :=
  Byte.eqb b space || Byte.eqb b tab || Byte.eqb b carriage_return.

(** The pattern [^], blanks [[ \t]] repeated, [\/\/], and a group capturing
    [[^\n]] repeated. *)
Definition commentRegex : regexp :=
  Seq [BeginText; Star is_blank; Literal (lit "//");
       Capture (Star not_newline)].

(** The pattern [^[ \t\r]+]. *)
Definition whitespaceRegex : regexp :=
  Seq [BeginText; Plus is_space].

(** Token represents a token found in the source-code. *)
Record Token : Type := {
  Type_ : string;
  Value : bytes;
  Pos : Position
}.

(** [Token.String]: the position and the type, then the value between
    single quotes when it is not empty, then a line feed. *)
Definition Token_String (t : Token) : bytes :=
  let str := Position_String (Pos t) ++ lit ", Type: " ++ lit (Type_ t) in
  let str :=
    match Value t with
    | [] => str
    | _ :: _ => str ++ lit ", Value: '" ++ Value t ++ lit "'"
    end in
  str ++ [newline].

(** Tokenizer splits the input source-code into tokens.  The struct's
    [symbols] field is never read ([getSymbol] ranges over the package-level
    list) and [NewTokenizer] sets the four regexp fields to the package-level
    patterns, so they are not fields of the model. *)
Record Tokenizer : Type := {
  column : Z;
  line : Z;
  text : bytes;
  remaining : bytes
}.

(** NewTokenizer creates a new tokenizer. *)
Definition NewTokenizer : Tokenizer :=
  {| column := 0; line := 0; text := []; remaining := [] |}.

(** *** Methods: state passing over the receiver, with panics *)

Definition method (A : Type) : Type := Tokenizer -> result (A * Tokenizer).

Definition ret {A} (a : A) : method A := fun t => Ok (a, t).

Definition bind {A B} (m : method A) (k : A -> method B) : method B :=
  fun t =>
    match m t with
    | Ok (a, t') => k a t'
    | Panic => Panic
    end.

(** Reading a field of the receiver, and assigning its fields. *)
Definition field {A} (f : Tokenizer -> A) : method A := fun t => Ok (f t, t).

Definition assign (f : Tokenizer -> Tokenizer) : method unit :=
  fun t => Ok (tt, f t).

(** A slice or index expression inside a method. *)
Definition eval {A} (r : result A) : method A :=
  fun t =>
    match r with
    | Ok a => Ok (a, t)
    | Panic => Panic
    end.

Declare Scope method_scope.
Delimit Scope method_scope with method.
Notation "x <- m ;; k" := (bind m (fun x => k))
  (at level 61, m at next level, right associativity) : method_scope.
Notation "m ;; k" := (bind m (fun _ => k))
  (at level 61, right associativity) : method_scope.
(** [token := c; if token != nil { return token }; k] *)
Notation "'return_if_found' c ;; k" :=
  (bind c (fun token => match token with
                        | Some tk => ret tk
                        | None => k
                        end))
  (at level 61, c at next level, right associativity) : method_scope.
Local Open Scope method_scope.

Definition set_column (c : Z) (t : Tokenizer) : Tokenizer :=
  {| column := c; line := line t; text := text t; remaining := remaining t |}.
Definition set_line (l : Z) (t : Tokenizer) : Tokenizer :=
  {| column := column t; line := l; text := text t; remaining := remaining t |}.
Definition set_text (s : bytes) (t : Tokenizer) : Tokenizer :=
  {| column := column t; line := line t; text := s; remaining := remaining t |}.
Definition set_remaining (s : bytes) (t : Tokenizer) : Tokenizer :=
  {| column := column t; line := line t; text := text t; remaining := s |}.

Definition len (s : bytes) : Z := Z.of_nat (length s).

Definition newToken (typ : string) (val : bytes) : method Token :=
  l <- field line ;;
  c <- field column ;;
  ret {| Type_ := typ; Value := val;
         Pos := {| Line := l; Coloumn := c |} |}.

Section Tokenizer.

(** The Unicode path of [strings.ToLower]; every statement below holds
    whatever it does. *)
Variable unicode_ToLower : bytes -> bytes.

(** Load loads programm code as input. *)
Definition Load (input : bytes) : method unit :=
  assign (set_column 1) ;;
  assign (set_text input) ;;
  assign (set_remaining (ToLower unicode_ToLower input)) ;;
  assign (set_line 1).

(** [t.column += amount], then [t.remaining = t.remaining[amount:]]. *)
Definition advance (amount : nat) : method unit :=
  c <- field column ;;
  assign (set_column (int_add c (Z.of_nat amount))) ;;
  rem <- field remaining ;;
  rest <- eval (slice_from rem amount) ;;
  assign (set_remaining rest).

(** In the recognizers [defer t.advance(n); return t.newToken(..)] builds
    the token first and advances afterwards. *)
Definition getWhitespace : method (option Token) :=
  rem <- field remaining ;;
  match Find whitespaceRegex rem with
  | Some found =>
      tok <- newToken TypeWhitespace found ;;
      advance (length found) ;;
      ret (Some tok)
  | None => ret None
  end.

(** The deferred function of [getNewline] runs once the token is built:
    [t.line++], [t.column = 0], [t.advance(1)]. *)
Definition getNewline : method (option Token) :=
  rem <- field remaining ;;
  match rem with
  | b :: _ =>
      if Byte.eqb b newline then
        tok <- newToken TypeNewline [] ;;
        l <- field line ;;
        assign (set_line (int_add l 1)) ;;
        assign (set_column 0) ;;
        advance 1 ;;
        ret (Some tok)
      else ret None
  | [] => ret None
  end.

(** The loop of [getSymbol] over the list of symbols. *)
Fixpoint getSymbol_loop (l : list bytes) : method (option Token) :=
  match l with
  | [] => ret None
  | symbol :: l' =>
      rem <- field remaining ;;
      if HasPrefix rem symbol then
        tok <- newToken TypeSymbol symbol ;;
        advance (length symbol) ;;
        ret (Some tok)
      else getSymbol_loop l'
  end.

Definition getSymbol : method (option Token) := getSymbol_loop symbols.

Definition getComment : method (option Token) :=
  rem <- field remaining ;;
  match Find commentRegex rem with
  | Some found =>
      tok <- newToken TypeComment found ;;
      advance (length found) ;;
      ret (Some tok)
  | None => ret None
  end.

(** [found[0]] is the whole match and [found[1]] the group. *)
Definition getKeyword : method (option Token) :=
  rem <- field remaining ;;
  match FindSubmatch keywordRegex rem with
  | Some found =>
      found0 <- eval (match nth_error found 0 with
                      | Some m => Ok m
                      | None => Panic
                      end) ;;
      kw <- eval (match nth_error found 1 with
                  | Some m => Ok m
                  | None => Panic
                  end) ;;
      tok <- newToken TypeKeyword kw ;;
      advance (length found0) ;;
      ret (Some tok)
  | None => ret None
  end.

Definition getIdentifier : method (option Token) :=
  rem <- field remaining ;;
  match Find identifierRegex rem with
  | Some found =>
      tok <- newToken TypeID found ;;
      advance (length found) ;;
      ret (Some tok)
  | None => ret None
  end.

(** The loop of [getStringConstant] over [t.remaining[1:]]: the index of
    the first quote met while [escaped] is unset. *)
Fixpoint getStringConstant_loop (s : bytes) (i : nat) (escaped : bool)
  : option nat :=
  match s with
  | [] => None
  | b :: s' =>
      if escaped then getStringConstant_loop s' (S i) false
      else
        let escaped := if Byte.eqb b backslash then true else escaped in
        if Byte.eqb b quote && negb escaped then Some i
        else getStringConstant_loop s' (S i) escaped
  end.

(** The test [len(t.remaining) < 2 || t.remaining[0] != quote] reads the
    first byte only when there are two. *)
Definition getStringConstant : method (option Token) :=
  rem <- field remaining ;;
  if (length rem <? 2)%nat
     || negb (match rem with b :: _ => Byte.eqb b quote | [] => false end)
  then ret None
  else
    tail <- eval (slice_from rem 1) ;;
    match getStringConstant_loop tail 0 false with
    | Some i =>
        value <- eval (slice rem 1 (i + 1)) ;;
        tok <- newToken TypeString value ;;
        advance (i + 2) ;;
        ret (Some tok)
    | None => ret None
    end.

Definition getNumberConstant : method (option Token) :=
  rem <- field remaining ;;
  match Find numberRegex rem with
  | Some found =>
      tok <- newToken TypeNumber found ;;
      advance (length found) ;;
      ret (Some tok)
  | None => ret None
  end.

(** Next returns the next token from the source document. *)
Definition Next : method Token :=
  return_if_found getComment ;;
  rem <- field remaining ;;
  if (length rem =? 0)%nat then newToken TypeEOF []
  else
    return_if_found getWhitespace ;;
    return_if_found getKeyword ;;
    return_if_found getNewline ;;
    return_if_found getSymbol ;;
    return_if_found getIdentifier ;;
    return_if_found getStringConstant ;;
    return_if_found getNumberConstant ;;
    rem <- field remaining ;;
    b <- eval (index rem 0) ;;
    token <- newToken TypeUnknown (string_of_byte b) ;;
    advance 1 ;;
    ret token.

(** A caller's loop: [Load] on a new tokenizer, then [n] calls of [Next],
    collecting the tokens. *)
Fixpoint Next_n (n : nat) : method (list Token) :=
  match n with
  | O => ret []
  | S n' =>
      tok <- Next ;;
      toks <- Next_n n' ;;
      ret (tok :: toks)
  end.

Definition tokenize (input : bytes) (n : nat) : result (list Token) :=
  match (Load input ;; Next_n n) NewTokenizer with
  | Ok (toks, _) => Ok toks
  | Panic => Panic
  end.

(* ===================================================================== *)
(** ** Vocabulary of the statements *)
(* ===================================================================== *)

(** *** States and tokens *)

(** The token [newToken typ val] builds in state [t]. *)
Definition token_at (t : Tokenizer) (typ : string) (val : bytes) : Token :=
  {| Type_ := typ; Value := val;
     Pos := {| Line := line t; Coloumn := column t |} |}.

(** The state [advance n] leaves when it does not panic. *)
Definition advanced (n : nat) (t : Tokenizer) : Tokenizer :=
  {| column := int_add (column t) (Z.of_nat n); line := line t;
     text := text t; remaining := skipn n (remaining t) |}.

(** The state the deferred function of [getNewline] leaves. *)
Definition next_line (t : Tokenizer) : Tokenizer :=
  {| column := int_add 0 1; line := int_add (line t) 1;
     text := text t; remaining := skipn 1 (remaining t) |}.

(** The shape shared by [getComment], [getWhitespace], [getIdentifier] and
    [getNumberConstant]. *)
Definition regexp_recognizer (typ : string) (re : regexp)
  : method (option Token) :=
  rem <- field remaining ;;
  match Find re rem with
  | Some found =>
      tok <- newToken typ found ;;
      advance (length found) ;;
      ret (Some tok)
  | None => ret None
  end.

(** *** Matching *)

(** [\b] between a byte [prev] and a byte [next] (absent at either end of
    the text): exactly one of them is a word byte. *)
Definition word_boundary (prev next : option byte) : bool :=
  xorb (is_word_at prev) (is_word_at next).

(** The longest prefix of [s] inside the class [c]. *)
Fixpoint run_of (c : byte -> bool) (s : bytes) : bytes :=
  match s with
  | b :: s' => if c b then b :: run_of c s' else []
  | [] => []
  end.

(** The text starts with a byte outside [c], or is empty. *)
Definition stops (c : byte -> bool) (s : bytes) : bool :=
  match s with
  | b :: _ => negb (c b)
  | [] => true
  end.

(** The test and the loop of [getStringConstant]: the index, in
    [t.remaining[1:]], of the quote that ends the literal. *)
Definition string_end (rem : bytes) : option nat :=
  if (length rem <? 2)%nat
     || negb (match rem with b :: _ => Byte.eqb b quote | [] => false end)
  then None
  else getStringConstant_loop (skipn 1 rem) 0 false.

(** *** [Next] as a decision on the unconsumed text *)

(** What [Next] finds at the head of the unconsumed text. *)
Inductive recognized : Type :=
| Found (typ : string) (val : bytes) (n : nat) (* a token over [n] bytes *)
| FoundNewline
| FoundEOF.

(** The cascade of [Next], read off the recognizers' tests. *)
Definition recognize (rem : bytes) : recognized :=
  match Find commentRegex rem with
  | Some found => Found TypeComment found (length found)
  | None =>
  match rem with
  | [] => FoundEOF
  | b :: _ =>
  match Find whitespaceRegex rem with
  | Some found => Found TypeWhitespace found (length found)
  | None =>
  match find_from keywordRegex None rem with
  | Some m => Found TypeKeyword (fst m) (length (fst m))
  | None =>
  if Byte.eqb b newline then FoundNewline else
  match find (HasPrefix rem) symbols with
  | Some symbol => Found TypeSymbol symbol (length symbol)
  | None =>
  match Find identifierRegex rem with
  | Some found => Found TypeID found (length found)
  | None =>
  match string_end rem with
  | Some i => Found TypeString (firstn i (skipn 1 rem)) (i + 2)
  | None =>
  match Find numberRegex rem with
  | Some found => Found TypeNumber found (length found)
  | None => Found TypeUnknown (string_of_byte b) 1
  end end end end end end end end.

(** The token and the state one call of [Next] yields. *)
Definition Next_result (t : Tokenizer) : Token * Tokenizer :=
  match recognize (remaining t) with
  | Found typ val n => (token_at t typ val, advanced n t)
  | FoundNewline => (token_at t TypeNewline [], next_line t)
  | FoundEOF => (token_at t TypeEOF [], t)
  end.

(** The tokens and the state [n] calls of [Next] yield. *)
Fixpoint Next_n_result (n : nat) (t : Tokenizer) : list Token * Tokenizer :=
  match n with
  | O => ([], t)
  | S n' =>
      let r := Next_n_result n' (snd (Next_result t)) in
      (fst (Next_result t) :: fst r, snd r)
  end.

(** The types of the tokens that cover text. *)
Definition text_types : list string :=
  [TypeComment; TypeWhitespace; TypeKeyword; TypeSymbol; TypeID; TypeString;
   TypeNumber; TypeUnknown].

(** *** Escaped and unescaped quotes *)

(** The flag of the specification: it is set when the current byte is a
    backslash that was not itself escaped, and cleared otherwise. *)
Definition escape_step (escaped : bool) (b : byte) : bool :=
  Byte.eqb b backslash && negb escaped.

(** The flag after the bytes of [s], starting unset. *)
Definition escaped_after (s : bytes) : bool := fold_left escape_step s false.

(** Index [k] of [s] holds a quote, and the flag is unset when the scan
    reaches it. *)
Definition unescaped_quote (s : bytes) (k : nat) : Prop :=
  nth_error s k = Some quote /\ escaped_after (firstn k s) = false.

(** [k] is the first such index. *)
Definition first_unescaped_quote (s : bytes) (k : nat) : Prop :=
  unescaped_quote s k /\ forall j, (j < k)%nat -> ~ unescaped_quote s j.

(** Another reading of the flag: a byte is escaped when an odd number of
    backslashes stands right before it. *)
Fixpoint leading_backslashes (s : bytes) : nat :=
  match s with
  | b :: s' => if Byte.eqb b backslash then S (leading_backslashes s') else O
  | [] => O
  end.

Definition trailing_backslashes (s : bytes) : nat :=
  leading_backslashes (rev s).

(** No quote of the text opens a literal that is closed. *)
Definition unterminated (rem : bytes) : Prop :=
  forall pre r, rem = pre ++ quote :: r -> forall k, ~ unescaped_quote r k.

(** No byte of [s] is a capital letter. *)
Definition no_capital (s : bytes) : Prop :=
  Forall (fun b => is_upper b = false) s.

(** *** Order of the symbols, order of the positions *)

(** No entry of [symbols] is a proper prefix of a later entry. *)
Definition symbols_ordered : bool :=
  forallb
    (fun j =>
       forallb
         (fun i =>
            match nth_error symbols i, nth_error symbols j with
            | Some a, Some b =>
                negb (HasPrefix b a) || (length a =? length b)%nat
            | _, _ => true
            end)
         (seq 0 j))
    (seq 0 (length symbols)).

(** Order of positions: by line, then by column. *)
Definition pos_le (p q : Position) : Prop :=
  Line p < Line q \/ (Line p = Line q /\ Coloumn p <= Coloumn q).

(** How the position of a token relates to that of the token before it:
    after a Newline token the line is one more and the column is 1; after
    any other token the line is the same and the column is no less. *)
Definition follows (a b : Token) : Prop :=
  (Type_ a = TypeNewline /\
   Line (Pos b) = Line (Pos a) + 1 /\ Coloumn (Pos b) = 1) \/
  (Type_ a <> TypeNewline /\
   Line (Pos b) = Line (Pos a) /\ Coloumn (Pos a) <= Coloumn (Pos b)).

(** The counters stay within [bound] as long as what is left of the text
    fits under it. *)
Definition counters_within (bound : Z) (t : Tokenizer) : Prop :=
  0 <= column t /\ 1 <= line t /\
  column t + len (remaining t) <= bound /\
  line t + len (remaining t) <= bound.

(** *** The patterns as scanners *)

Definition dot : byte := x2e.
Definition colon : byte := x3a.
Definition slash : byte := x2f.

(** Blanks, two slashes, and the rest of the line. *)
Definition scan_comment (s : bytes) : option bytes :=
  let blanks := run_of is_blank s in
  let rest := skipn (length blanks) s in
  if HasPrefix rest [slash; slash]
  then Some (blanks ++ [slash; slash] ++ run_of not_newline (skipn 2 rest))
  else None.

(** The longest run of spaces, tabs and carriage returns, if not empty. *)
Definition scan_whitespace (s : bytes) : option bytes :=
  match run_of is_space s with
  | [] => None
  | found => Some found
  end.

(** A letter, or a colon and a letter, then the longest run of word bytes. *)
Definition scan_identifier (s : bytes) : option bytes :=
  match s with
  | b :: s' =>
      if is_letter b then Some (b :: run_of is_word s')
      else if Byte.eqb b colon then
        match s' with
        | l :: s'' =>
            if is_letter l then Some (b :: l :: run_of is_word s'') else None
        | [] => None
        end
      else None
  | [] => None
  end.

(** A dot and the longest run of digits after it, when that run is not
    empty. *)
Definition scan_fraction (s : bytes) : bytes :=
  match s with
  | b :: rest =>
      if Byte.eqb b dot then
        match run_of is_digit rest with
        | [] => []
        | digits => b :: digits
        end
      else []
  | [] => []
  end.

(** The longest run of digits, if not empty, then the fraction. *)
Definition scan_number (s : bytes) : option bytes :=
  match run_of is_digit s with
  | [] => None
  | digits => Some (digits ++ scan_fraction (skipn (length digits) s))
  end.

(** *** The text behind a token *)

(** The byte an Unknown token was made from: its value is the UTF-8
    encoding of that byte taken as a code point, one or two bytes long. *)
Definition unknown_byte (v : bytes) : byte :=
  match v with
  | [b] => b
  | [b1; b2] =>
      byte_of_N ((Byte.to_N b1 - 192) * 64 + (Byte.to_N b2 - 128))
  | _ => x00
  end.

(** The bytes of the buffer a token stands for: a line feed for a Newline
    token, the value between quotes for a String token, the byte behind an
    Unknown token, and the value for the others. *)
Definition source_text (tok : Token) : bytes :=
  if String.eqb (Type_ tok) TypeNewline then [newline]
  else if String.eqb (Type_ tok) TypeString then quote :: Value tok ++ [quote]
  else if String.eqb (Type_ tok) TypeUnknown then [unknown_byte (Value tok)]
  else Value tok.

(** The position after the tokens [toks], from the position [p]: a Newline
    token leads to column 1 of the next line, any other token moves the
    column by the number of bytes it stands for. *)
Fixpoint position_after (p : Position) (toks : list Token) : Position :=
  match toks with
  | [] => p
  | tok :: toks' =>
      position_after
        (if String.eqb (Type_ tok) TypeNewline
         then {| Line := Line p + 1; Coloumn := 1 |}
         else {| Line := Line p;
                 Coloumn := Coloumn p + len (source_text tok) |})
        toks'
  end.

(** What the type of a token says of the type of the token returned
    after it. *)
Definition may_follow (a b : Token) : Prop :=
  (Type_ a = TypeWhitespace -> Type_ b <> TypeWhitespace) /\
  (Type_ a = TypeNumber -> Type_ b <> TypeNumber) /\
  (Type_ a = TypeComment -> Type_ b = TypeNewline \/ Type_ b = TypeEOF) /\
  (Type_ a = TypeEOF -> Type_ b = TypeEOF) /\
  (Type_ a = TypeID \/ Type_ a = TypeKeyword ->
   Type_ b <> TypeKeyword /\ Type_ b <> TypeNumber).

(** The bytes of a decimal numeral: the digits and the minus sign. *)
Definition is_numeral_byte (b : byte) : bool :=
  is_digit b || Byte.eqb b x2d.

(** The ten token types. *)
Definition token_types : list string :=
  [TypeID; TypeNumber; TypeString; TypeKeyword; TypeSymbol; TypeNewline;
   TypeEOF; TypeComment; TypeWhitespace; TypeUnknown].

(** *** Inputs of the examples *)

(** The line of the specification's example. *)
Definition hello_line : bytes := lit "// hello" ++ [newline].

(** The literal of the specification's example: a, an escaped quote, b. *)
Definition escaped_quote_literal : bytes :=
  quote :: lit "a" ++ [backslash; quote] ++ lit "b" ++ [quote].

(** The text of the specification's example: a quote, then abc. *)
Definition unterminated_abc : bytes := quote :: lit "abc".

(** A quote, then a, a space, b. *)
Definition unterminated_a_b : bytes := quote :: lit "a b".

(** A literal with capitals: a quote, Say HELLO, a quote. *)
Definition capital_literal : bytes := quote :: lit "Say HELLO" ++ [quote].

(** Two lines: if x, line feed, goto 3. *)
Definition two_lines : bytes := lit "if x" ++ [newline] ++ lit "goto 3".

(** A literal with a capital E with acute accent, two bytes in UTF-8. *)
Definition accented_literal : bytes :=
  quote :: lit "Say H" ++ [xc3; x89] ++ [quote].

(** The Latin-1 rows of the lower-case table: the capital letters from
    U+00C0 to U+00DE, the multiplication sign U+00D7 apart, are 32 below
    their small letters.  The runes from U+0100 on are left as they are,
    so this is the table on texts whose runes are all below U+0100. *)
Definition latin1_lower_case (r : N) : N :=
  if ((192 <=? r) && (r <=? 222) && negb (r =? 215))%N then (r + 32)%N else r.

(* ===================================================================== *)
(** ** Facts about the runtime and the regular expressions *)
(* ===================================================================== *)

Lemma wrap_small (z : Z) : int_min <= z <= int_max -> wrap z = z.
Proof.
  unfold wrap, int_min, int_max. intros H.
  rewrite Z.mod_small; lia.
Qed.

Lemma HasPrefix_app (p rest : bytes) : HasPrefix (p ++ rest) p = true.
Proof.
  induction p as [|b p IH]; simpl; [reflexivity|].
  rewrite IH, andb_true_r. now apply byte_dec_lb.
Qed.

Lemma HasPrefix_inv (s p : bytes) :
  HasPrefix s p = true -> exists rest, s = p ++ rest.
Proof.
  revert s. induction p as [|b p IH]; intros s H; simpl in H.
  - now exists s.
  - destruct s as [|c s]; [discriminate|].
    apply andb_true_iff in H as [Hc Hp].
    apply byte_dec_bl in Hc. subst c.
    destruct (IH _ Hp) as [rest ->]. now exists rest.
Qed.

Lemma HasPrefix_length (s p : bytes) :
  HasPrefix s p = true -> (length p <= length s)%nat.
Proof.
  intros H. destruct (HasPrefix_inv _ _ H) as [rest ->].
  rewrite length_app. lia.
Qed.

Lemma skipn_app_exact (a b : bytes) : skipn (length a) (a ++ b) = b.
Proof. induction a; simpl; auto. Qed.

(** Every alternative of a repetition is a prefix of the text. *)
Lemma star_prefix (c : byte -> bool) (s m : bytes) :
  In m (star c s) -> exists rest, s = m ++ rest.
Proof.
  revert m. induction s as [|b s IH]; intros m H; simpl in H.
  - destruct H as [<-|[]]. now exists [].
  - destruct (c b).
    + apply in_app_iff in H as [H|[<-|[]]].
      * apply in_map_iff in H as (m' & <- & Hm').
        destruct (IH _ Hm') as [rest ->]. now exists rest.
      * now exists (b :: s).
    + destruct H as [<-|[]]. now exists (b :: s).
Qed.

Lemma plus_prefix (c : byte -> bool) (s m : bytes) :
  In m (plus c s) -> (exists rest, s = m ++ rest) /\ (1 <= length m)%nat.
Proof.
  unfold plus. destruct s as [|b s]; [intros []|].
  destruct (c b); [|intros []].
  intros H. apply in_map_iff in H as (m' & <- & Hm').
  destruct (star_prefix _ _ _ Hm') as [rest ->].
  split; [now exists rest | simpl; lia].
Qed.

(** What a regular expression consumes is a prefix of the text, at least
    [min_len] long. *)
Lemma run_prefix (r : regexp) :
  forall prev s m, In m (run r prev s) ->
    (exists rest, s = fst m ++ rest) /\ (min_len r <= length (fst m))%nat.
Proof.
  induction r as [| |l|c|c|r IH|r1 IH1 r2 IH2|r1 IH1 r2 IH2|r IH];
    intros prev s m H; simpl in H |- *.
  - destruct prev; [destruct H|]. destruct H as [<-|[]]. split; [now exists s|lia].
  - destruct (xorb _ _); [|destruct H].
    destruct H as [<-|[]]. split; [now exists s|lia].
  - destruct (HasPrefix s l) eqn:E; [|destruct H].
    destruct H as [<-|[]]. split; [now apply HasPrefix_inv|simpl; lia].
  - apply in_map_iff in H as (m' & <- & Hm').
    split; [now apply star_prefix with c|lia].
  - apply in_map_iff in H as (m' & <- & Hm').
    now apply plus_prefix with c.
  - apply in_app_iff in H as [H|[<-|[]]].
    + destruct (IH _ _ _ H). split; [assumption|lia].
    + split; [now exists s|lia].
  - apply in_flat_map in H as (m1 & H1 & H).
    apply in_map_iff in H as (m2 & <- & H2).
    destruct (IH1 _ _ _ H1) as [[rest1 E1] L1].
    destruct (IH2 _ _ _ H2) as [[rest2 E2] L2].
    simpl. split.
    + exists rest2. rewrite E1 at 1.
      rewrite E1, skipn_app, skipn_all, Nat.sub_diag in E2.
      simpl in E2. rewrite E2. now rewrite app_assoc.
    + rewrite length_app. lia.
  - apply in_app_iff in H as [H|H].
    + destruct (IH1 _ _ _ H). split; [assumption|lia].
    + destruct (IH2 _ _ _ H). split; [assumption|lia].
  - apply in_map_iff in H as (m' & <- & Hm'). now apply IH in Hm'.
Qed.

(** A pattern that begins with [^] matches at the beginning of the text or
    nowhere. *)
Lemma find_from_anchored (r : regexp) (s : bytes) :
  find_from (Concat BeginText r) None s
  = hd_error (run (Concat BeginText r) None s).
Proof.
  assert (Hlater : forall s' b, find_from (Concat BeginText r) (Some b) s' = None).
  { induction s' as [|c s' IH]; intros b; simpl; [reflexivity|apply IH]. }
  destruct s as [|b s]; simpl;
    match goal with
    | |- match ?l with _ => _ end = _ => destruct l
    end; try reflexivity.
  apply Hlater.
Qed.

Lemma find_from_anchored_spec (r : regexp) (s : bytes) (m : submatch) :
  find_from (Concat BeginText r) None s = Some m ->
  (exists rest, s = fst m ++ rest) /\ (min_len r <= length (fst m))%nat.
Proof.
  rewrite find_from_anchored. intros H.
  assert (Hin : In m (run (Concat BeginText r) None s)).
  { destruct (run _ None s); [discriminate|]. injection H as ->. now left. }
  apply run_prefix in Hin. exact Hin.
Qed.

Lemma Find_anchored (r : regexp) (s : bytes) :
  Find (Concat BeginText r) s
  = option_map fst (hd_error (run (Concat BeginText r) None s)).
Proof. unfold Find. now rewrite find_from_anchored. Qed.

Lemma Find_anchored_prefix (r : regexp) (s found : bytes) :
  Find (Concat BeginText r) s = Some found ->
  (exists rest, s = found ++ rest) /\ (min_len r <= length found)%nat.
Proof.
  unfold Find. destruct (find_from _ None s) as [m|] eqn:E; [|discriminate].
  intros [= <-]. now apply find_from_anchored_spec.
Qed.

Lemma run_Concat_inv (r1 r2 : regexp) (prev : option byte) (s : bytes)
      (m : submatch) :
  In m (run (Concat r1 r2) prev s) ->
  exists m1 m2,
    In m1 (run r1 prev s) /\
    In m2 (run r2 (last (map Some (fst m1)) prev) (skipn (length (fst m1)) s)) /\
    m = (fst m1 ++ fst m2, snd m1 ++ snd m2).
Proof.
  simpl. intros H. apply in_flat_map in H as (m1 & H1 & H).
  apply in_map_iff in H as (m2 & <- & H2). now exists m1, m2.
Qed.

Lemma run_Alt_Literal_inv (l : list bytes) (prev : option byte) (s : bytes)
      (m : submatch) :
  l <> [] ->
  In m (run (Alt (map Literal l)) prev s) ->
  exists w, In w l /\ HasPrefix s w = true /\ m = (w, []).
Proof.
  induction l as [|w l IH]; [congruence|]. intros _ H.
  destruct l as [|w' l].
  - simpl in H. destruct (HasPrefix s w) eqn:E; [|destruct H].
    destruct H as [<-|[]]. exists w. simpl. auto.
  - change (In m (run (Literal w) prev s
                  ++ run (Alt (map Literal (w' :: l))) prev s)) in H.
    apply in_app_iff in H as [H|H].
    + simpl in H. destruct (HasPrefix s w) eqn:E; [|destruct H].
      destruct H as [<-|[]]. exists w. simpl. auto.
    + destruct IH as (w0 & Hin & Hp & ->); [congruence|assumption|].
      exists w0. split; [now right|auto].
Qed.

(** *** Greedy matching *)

Lemma run_of_app (c : byte -> bool) (a r : bytes) :
  forallb c a = true -> run_of c (a ++ r) = a ++ run_of c r.
Proof.
  induction a as [|b a IH]; simpl; [reflexivity|].
  intros H. apply andb_true_iff in H as [Hb Ha]. now rewrite Hb, IH.
Qed.

Lemma run_of_stops (c : byte -> bool) (s : bytes) :
  stops c s = true -> run_of c s = [].
Proof.
  destruct s as [|b s]; simpl; [reflexivity|]. now destruct (c b).
Qed.

Lemma run_of_exact (c : byte -> bool) (a r : bytes) :
  forallb c a = true -> stops c r = true -> run_of c (a ++ r) = a.
Proof.
  intros Ha Hr. now rewrite run_of_app, run_of_stops, app_nil_r.
Qed.

Lemma hd_error_map (A B : Type) (f : A -> B) (l : list A) (x : A) :
  hd_error l = Some x -> hd_error (map f l) = Some (f x).
Proof. destruct l; [discriminate|]. now intros [= ->]. Qed.

Lemma hd_error_app (A : Type) (l l' : list A) (x : A) :
  hd_error l = Some x -> hd_error (l ++ l') = Some x.
Proof. destruct l; [discriminate|]. now intros [= ->]. Qed.

Lemma hd_error_flat_map (A B : Type) (f : A -> list B) (l : list A)
      (x : A) (y : B) :
  hd_error l = Some x -> hd_error (f x) = Some y ->
  hd_error (flat_map f l) = Some y.
Proof.
  destruct l; [discriminate|]. intros [= ->] H. simpl. now apply hd_error_app.
Qed.

(** A greedy repetition first tries the longest run. *)
Lemma hd_error_star (c : byte -> bool) (s : bytes) :
  hd_error (star c s) = Some (run_of c s).
Proof.
  induction s as [|b s IH]; simpl; [reflexivity|].
  destruct (c b); [|reflexivity].
  apply hd_error_app. now apply hd_error_map.
Qed.

Lemma hd_error_plus (c : byte -> bool) (b : byte) (s : bytes) :
  c b = true -> hd_error (plus c (b :: s)) = Some (b :: run_of c s).
Proof.
  intros H. unfold plus. rewrite H. apply hd_error_map, hd_error_star.
Qed.

Lemma hd_error_run_Concat (r1 r2 : regexp) (prev : option byte) (s : bytes)
      (m1 m2 : submatch) :
  hd_error (run r1 prev s) = Some m1 ->
  hd_error (run r2 (last (map Some (fst m1)) prev) (skipn (length (fst m1)) s))
  = Some m2 ->
  hd_error (run (Concat r1 r2) prev s)
  = Some (fst m1 ++ fst m2, snd m1 ++ snd m2).
Proof.
  intros H1 H2. cbn [run].
  apply hd_error_flat_map with (x := m1); [assumption|].
  now apply hd_error_map with (f := fun m => (fst m1 ++ fst m, snd m1 ++ snd m)).
Qed.

Lemma Find_anchored_first (r : regexp) (s : bytes) (m : submatch) :
  hd_error (run r None s) = Some m ->
  Find (Concat BeginText r) s = Some (fst m).
Proof.
  intros H. rewrite Find_anchored.
  rewrite (hd_error_run_Concat BeginText r None s ([], []) m);
    [reflexivity|reflexivity|exact H].
Qed.

Lemma run_of_letter_word (s : bytes) :
  run_of is_letter s ++ run_of is_word (skipn (length (run_of is_letter s)) s)
  = run_of is_word s.
Proof.
  induction s as [|b s IH]; [reflexivity|].
  change (run_of is_letter (b :: s))
    with (if is_letter b then b :: run_of is_letter s else []).
  destruct (is_letter b) eqn:E; [|reflexivity].
  cbn [length skipn app]. rewrite IH. cbn [run_of].
  unfold is_word. now rewrite E.
Qed.

(** *** The patterns of the tokenizer *)

(** A match of the keyword pattern is one of the eight words, followed by a
    word boundary; the group holds the word. *)
Lemma run_keywordRegex_inv (s : bytes) (m : submatch) :
  In m (run keywordRegex None s) ->
  exists kw rest,
    In kw keywords /\ s = kw ++ rest /\ m = (kw, [kw]) /\
    word_boundary None (hd_error s) = true /\
    word_boundary (last (map Some kw) None) (hd_error rest) = true.
Proof.
  intros H. change keywordRegex with
    (Concat BeginText
       (Concat WordBoundary
          (Concat (Capture (Alt (map Literal keywords))) WordBoundary))) in H.
  apply run_Concat_inv in H as (m0 & m' & H0 & H & ->).
  destruct H0 as [<-|[]]. cbn [fst snd length skipn map last] in H.
  apply run_Concat_inv in H as (m1 & m'' & H1 & H & ->).
  cbn [run] in H1. fold (word_boundary None (hd_error s)) in H1.
  destruct (word_boundary None (hd_error s)) eqn:B1; [|destruct H1].
  destruct H1 as [<-|[]]. cbn [fst snd length skipn map last] in H.
  apply run_Concat_inv in H as (m2 & m3 & H2 & H3 & ->).
  cbn [run] in H2. apply in_map_iff in H2 as (m4 & <- & H4).
  apply run_Alt_Literal_inv in H4 as (kw & Hin & Hp & ->); [|discriminate].
  apply HasPrefix_inv in Hp as [rest ->].
  cbn [run fst snd] in H3. rewrite skipn_app_exact in H3.
  fold (word_boundary (last (map Some kw) None) (hd_error rest)) in H3.
  destruct (word_boundary _ (hd_error rest)) eqn:B2; [|destruct H3].
  destruct H3 as [<-|[]].
  exists kw, rest. cbn [fst snd app]. rewrite !app_nil_r. auto.
Qed.

Lemma find_keywordRegex_inv (s : bytes) (m : submatch) :
  find_from keywordRegex None s = Some m ->
  exists kw rest,
    In kw keywords /\ s = kw ++ rest /\ m = (kw, [kw]) /\
    word_boundary None (hd_error s) = true /\
    word_boundary (last (map Some kw) None) (hd_error rest) = true.
Proof.
  change keywordRegex with
    (Concat BeginText
       (Concat WordBoundary
          (Concat (Capture (Alt (map Literal keywords))) WordBoundary))).
  rewrite find_from_anchored. intros H. apply run_keywordRegex_inv.
  destruct (run _ None s); [discriminate|]. injection H as ->. now left.
Qed.

(** Conversely a keyword followed by a byte that is not a word byte, or by
    nothing, is matched, and as that keyword. *)
Lemma find_keywordRegex_intro (kw rest : bytes) :
  In kw keywords ->
  is_word_at (hd_error rest) = false ->
  find_from keywordRegex None (kw ++ rest) = Some (kw, [kw]).
Proof.
  intros Hin Hb.
  change keywordRegex with
    (Concat BeginText
       (Concat WordBoundary
          (Concat (Capture (Alt (map Literal keywords))) WordBoundary))).
  rewrite find_from_anchored.
  simpl in Hin.
  repeat (destruct Hin as [<-|Hin]; [cbn; rewrite Hb; reflexivity|]).
  destruct Hin.
Qed.

Lemma keyword_last_is_word (kw : bytes) :
  In kw keywords -> is_word_at (last (map Some kw) None) = true.
Proof.
  intros Hin. simpl in Hin.
  repeat (destruct Hin as [<-|Hin]; [reflexivity|]).
  destruct Hin.
Qed.

Lemma keyword_letters (kw : bytes) :
  In kw keywords ->
  exists l kw', kw = l :: kw' /\ is_letter l = true /\
                forallb is_word kw' = true.
Proof.
  intros Hin. simpl in Hin.
  repeat (destruct Hin as [<-|Hin];
          [eexists _, _; split; [reflexivity|split; reflexivity]|]).
  destruct Hin.
Qed.

(** On a text that begins with a colon the keyword pattern finds nothing:
    there is no word boundary before the colon. *)
Lemma find_keywordRegex_colon (s : bytes) :
  find_from keywordRegex None (lit ":" ++ s) = None.
Proof.
  etransitivity; [apply find_from_anchored|]. vm_compute. reflexivity.
Qed.

(** The comment pattern takes the blanks, the two slashes and the rest of
    the line. *)
Lemma Find_commentRegex_line (blanks body rest : bytes) :
  forallb is_blank blanks = true ->
  forallb not_newline body = true ->
  stops not_newline rest = true ->
  Find commentRegex (blanks ++ lit "//" ++ body ++ rest)
  = Some (blanks ++ lit "//" ++ body).
Proof.
  intros Hblanks Hbody Hrest.
  change commentRegex with
    (Concat BeginText
       (Concat (Star is_blank)
          (Concat (Literal (lit "//")) (Capture (Star not_newline))))).
  apply (Find_anchored_first _ _ (blanks ++ lit "//" ++ body, [body])).
  apply (hd_error_run_Concat _ _ _ _ (blanks, []) (lit "//" ++ body, [body])).
  - cbn [run]. rewrite <- (run_of_exact is_blank blanks
                             (lit "//" ++ body ++ rest)) at 2
      by (assumption || reflexivity).
    apply hd_error_map with (f := fun m => (m, [])), hd_error_star.
  - cbn [fst]. rewrite skipn_app_exact.
    apply (hd_error_run_Concat _ _ _ _ (lit "//", []) (body, [body])).
    + cbn [run]. now rewrite HasPrefix_app.
    + cbn [fst run]. rewrite skipn_app_exact.
      apply hd_error_map with (f := fun m => (fst m, fst m :: snd m))
                              (x := (body, [])).
      rewrite <- (run_of_exact not_newline body rest) at 2 by assumption.
      apply hd_error_map with (f := fun m => (m, [])), hd_error_star.
Qed.

(** The identifier pattern on a colon followed by a letter: the colon, and
    the longest run of word bytes after it. *)
Lemma Find_identifierRegex_colon (l : byte) (s : bytes) :
  is_letter l = true ->
  Find identifierRegex (lit ":" ++ l :: s)
  = Some (lit ":" ++ l :: run_of is_word s).
Proof.
  intros Hl.
  change identifierRegex with
    (Concat BeginText
       (Concat (Quest (Literal (lit ":")))
          (Concat (Plus is_letter) (Star is_word)))).
  rewrite <- run_of_letter_word.
  apply (Find_anchored_first _ _
           (lit ":" ++ (l :: run_of is_letter s)
              ++ run_of is_word (skipn (length (run_of is_letter s)) s), [])).
  apply (hd_error_run_Concat _ _ _ _ (lit ":", [])
           ((l :: run_of is_letter s)
              ++ run_of is_word (skipn (length (run_of is_letter s)) s), [])).
  - reflexivity.
  - cbn [fst lit list_byte_of_string length skipn app].
    apply (hd_error_run_Concat _ _ _ _ (l :: run_of is_letter s, [])
             (run_of is_word (skipn (length (run_of is_letter s)) s), [])).
    + cbn [run]. apply hd_error_map with (f := fun m => (m, [])).
      now apply hd_error_plus.
    + cbn [fst run length skipn].
      apply hd_error_map with (f := fun m => (m, [])), hd_error_star.
Qed.

(* ===================================================================== *)
(** ** What one call of [Next] does *)
(* ===================================================================== *)

(** *** The recognizers *)

Lemma newToken_eq (typ : string) (val : bytes) (t : Tokenizer) :
  newToken typ val t = Ok (token_at t typ val, t).
Proof. reflexivity. Qed.

Lemma advance_eq (n : nat) (t : Tokenizer) :
  (n <= length (remaining t))%nat -> advance n t = Ok (tt, advanced n t).
Proof.
  intros H. unfold advance, bind, field, assign, eval, slice_from. simpl.
  apply Nat.leb_le in H. now rewrite H.
Qed.

Lemma regexp_recognizer_eq (typ : string) (r : regexp) (t : Tokenizer) :
  regexp_recognizer typ (Concat BeginText r) t
  = Ok (match Find (Concat BeginText r) (remaining t) with
        | Some found => (Some (token_at t typ found), advanced (length found) t)
        | None => (None, t)
        end).
Proof.
  unfold regexp_recognizer, bind at 1, field.
  destruct (Find _ (remaining t)) as [found|] eqn:E; [|reflexivity].
  apply Find_anchored_prefix in E as [[rest E] _].
  unfold bind. rewrite newToken_eq, advance_eq; [reflexivity|].
  rewrite E, length_app. lia.
Qed.

Lemma getComment_eq (t : Tokenizer) :
  getComment t
  = Ok (match Find commentRegex (remaining t) with
        | Some found =>
            (Some (token_at t TypeComment found), advanced (length found) t)
        | None => (None, t)
        end).
Proof. exact (regexp_recognizer_eq TypeComment _ t). Qed.

Lemma getWhitespace_eq (t : Tokenizer) :
  getWhitespace t
  = Ok (match Find whitespaceRegex (remaining t) with
        | Some found =>
            (Some (token_at t TypeWhitespace found), advanced (length found) t)
        | None => (None, t)
        end).
Proof. exact (regexp_recognizer_eq TypeWhitespace _ t). Qed.

Lemma getIdentifier_eq (t : Tokenizer) :
  getIdentifier t
  = Ok (match Find identifierRegex (remaining t) with
        | Some found =>
            (Some (token_at t TypeID found), advanced (length found) t)
        | None => (None, t)
        end).
Proof. exact (regexp_recognizer_eq TypeID _ t). Qed.

Lemma getNumberConstant_eq (t : Tokenizer) :
  getNumberConstant t
  = Ok (match Find numberRegex (remaining t) with
        | Some found =>
            (Some (token_at t TypeNumber found), advanced (length found) t)
        | None => (None, t)
        end).
Proof. exact (regexp_recognizer_eq TypeNumber _ t). Qed.

Lemma getKeyword_eq (t : Tokenizer) :
  getKeyword t
  = Ok (match find_from keywordRegex None (remaining t) with
        | Some m =>
            (Some (token_at t TypeKeyword (fst m)), advanced (length (fst m)) t)
        | None => (None, t)
        end).
Proof.
  unfold getKeyword, bind at 1, field, FindSubmatch.
  destruct (find_from keywordRegex None (remaining t)) as [m|] eqn:E;
    [|reflexivity].
  apply find_keywordRegex_inv in E as (kw & rest & _ & E & -> & _).
  cbn [option_map fst snd nth_error]. unfold bind, eval.
  rewrite newToken_eq, advance_eq; [reflexivity|].
  rewrite E, length_app. lia.
Qed.

Lemma getNewline_eq (t : Tokenizer) :
  getNewline t
  = Ok (match remaining t with
        | b :: _ =>
            if Byte.eqb b newline
            then (Some (token_at t TypeNewline []), next_line t)
            else (None, t)
        | [] => (None, t)
        end).
Proof.
  unfold getNewline, bind at 1, field.
  destruct (remaining t) as [|b rest] eqn:E; [reflexivity|].
  destruct (Byte.eqb b newline); [|reflexivity].
  unfold bind, field, assign, advance, bind, field, assign, eval, slice_from, ret.
  cbn. rewrite E. cbn. unfold next_line, token_at. now rewrite E.
Qed.

Lemma getSymbol_loop_eq (l : list bytes) (t : Tokenizer) :
  getSymbol_loop l t
  = Ok (match find (HasPrefix (remaining t)) l with
        | Some symbol =>
            (Some (token_at t TypeSymbol symbol), advanced (length symbol) t)
        | None => (None, t)
        end).
Proof.
  induction l as [|symbol l IH]; [reflexivity|].
  cbn [getSymbol_loop find]. unfold bind at 1, field.
  destruct (HasPrefix (remaining t) symbol) eqn:E; [|exact IH].
  unfold bind. rewrite newToken_eq, advance_eq; [reflexivity|].
  now apply HasPrefix_length.
Qed.

(** The index [getStringConstant_loop] returns is inside the slice. *)
Lemma getStringConstant_loop_bound (s : bytes) :
  forall i escaped k,
    getStringConstant_loop s i escaped = Some k ->
    (i <= k < i + length s)%nat.
Proof.
  induction s as [|b s IH]; intros i escaped k H; simpl in H; [discriminate|].
  destruct escaped.
  - apply IH in H. simpl. lia.
  - destruct (Byte.eqb b quote && negb (if Byte.eqb b backslash then true else false)).
    + injection H as <-. simpl. lia.
    + apply IH in H. simpl. lia.
Qed.

Lemma string_end_bound (rem : bytes) (i : nat) :
  string_end rem = Some i -> (i + 2 <= length rem)%nat.
Proof.
  unfold string_end. destruct (_ || _); [discriminate|].
  intros H. apply getStringConstant_loop_bound in H.
  rewrite length_skipn in H. lia.
Qed.

Lemma getStringConstant_eq (t : Tokenizer) :
  getStringConstant t
  = Ok (match string_end (remaining t) with
        | Some i =>
            (Some (token_at t TypeString (firstn i (skipn 1 (remaining t)))),
             advanced (i + 2) t)
        | None => (None, t)
        end).
Proof.
  unfold getStringConstant, bind at 1, field.
  destruct (string_end (remaining t)) as [i|] eqn:E.
  - pose proof (string_end_bound _ _ E) as Hlen. unfold string_end in E.
    destruct (_ || _); [discriminate|].
    unfold bind at 1, eval, slice_from.
    replace (1 <=? length (remaining t))%nat with true
      by (symmetry; apply Nat.leb_le; lia).
    rewrite E. unfold bind at 1, eval, slice.
    replace ((1 <=? i + 1)%nat && (i + 1 <=? length (remaining t))%nat)
      with true
      by (symmetry; apply andb_true_iff; split; apply Nat.leb_le; lia).
    unfold bind. rewrite newToken_eq, advance_eq by lia.
    now replace (i + 1 - 1)%nat with i by lia.
  - unfold string_end in E. destruct (_ || _) eqn:G; [reflexivity|].
    apply orb_false_iff in G as [G _]. apply Nat.ltb_ge in G.
    unfold bind at 1, eval, slice_from.
    replace (1 <=? length (remaining t))%nat with true
      by (symmetry; apply Nat.leb_le; lia).
    now rewrite E.
Qed.

(** *** The cascade *)

(** [Next] never panics, and does what [recognize] says. *)
Lemma Next_eq (t : Tokenizer) : Next t = Ok (Next_result t).
Proof.
  unfold Next, Next_result, recognize.
  unfold bind at 1. rewrite getComment_eq.
  destruct (Find commentRegex (remaining t)); [reflexivity|].
  unfold bind at 1, field.
  destruct (remaining t) as [|b rest] eqn:E; [reflexivity|].
  cbn [length Nat.eqb]. rewrite <- E.
  unfold bind at 1. rewrite getWhitespace_eq.
  destruct (Find whitespaceRegex (remaining t)); [reflexivity|].
  unfold bind at 1. rewrite getKeyword_eq.
  destruct (find_from keywordRegex None (remaining t)); [reflexivity|].
  unfold bind at 1. rewrite getNewline_eq, E.
  destruct (Byte.eqb b newline); [reflexivity|]. rewrite <- E.
  unfold bind at 1. unfold getSymbol. rewrite getSymbol_loop_eq.
  destruct (find (HasPrefix (remaining t)) symbols); [reflexivity|].
  unfold bind at 1. rewrite getIdentifier_eq.
  destruct (Find identifierRegex (remaining t)); [reflexivity|].
  unfold bind at 1. rewrite getStringConstant_eq.
  destruct (string_end (remaining t)); [reflexivity|].
  unfold bind at 1. rewrite getNumberConstant_eq.
  destruct (Find numberRegex (remaining t)); [reflexivity|].
  unfold bind, field, eval, index. rewrite E. cbn [nth_error].
  rewrite newToken_eq, advance_eq; [|rewrite E; simpl; lia].
  reflexivity.
Qed.

(** A token [recognize] finds covers at least one byte, and no more than
    there are. *)
Lemma recognize_Found (rem : bytes) (typ : string) (val : bytes) (n : nat) :
  recognize rem = Found typ val n -> (1 <= n <= length rem)%nat.
Proof.
  unfold recognize.
  destruct (Find commentRegex rem) as [f|] eqn:E1.
  { intros [= _ _ <-]. apply Find_anchored_prefix in E1 as [[rest ->] L].
    cbn in L. rewrite length_app. lia. }
  destruct rem as [|b rest] eqn:E; [discriminate|]. rewrite <- E in *.
  destruct (Find whitespaceRegex rem) as [f|] eqn:E2.
  { intros [= _ _ <-]. apply Find_anchored_prefix in E2 as [[rest' ->] L].
    cbn in L. rewrite length_app. lia. }
  destruct (find_from keywordRegex None rem) as [m|] eqn:E3.
  { intros [= _ _ <-].
    apply find_keywordRegex_inv in E3 as (kw & rest' & Hin & -> & -> & _).
    cbn [fst]. rewrite length_app. split; [|lia].
    simpl in Hin. repeat (destruct Hin as [<-|Hin]; [simpl; lia|]).
    destruct Hin. }
  destruct (Byte.eqb b newline); [discriminate|].
  destruct (find (HasPrefix rem) symbols) as [sym|] eqn:E4.
  { intros [= _ _ <-]. apply find_some in E4 as [Hin Hp].
    apply HasPrefix_length in Hp. split; [|lia].
    simpl in Hin. repeat (destruct Hin as [<-|Hin]; [simpl; lia|]).
    destruct Hin. }
  destruct (Find identifierRegex rem) as [f|] eqn:E5.
  { intros [= _ _ <-]. apply Find_anchored_prefix in E5 as [[rest' ->] L].
    cbn in L. rewrite length_app. lia. }
  destruct (string_end rem) as [i|] eqn:E6.
  { intros [= _ _ <-]. apply string_end_bound in E6. lia. }
  destruct (Find numberRegex rem) as [f|] eqn:E7.
  { intros [= _ _ <-]. apply Find_anchored_prefix in E7 as [[rest' ->] L].
    cbn in L. rewrite length_app. lia. }
  intros [= _ _ <-]. rewrite E. simpl. lia.
Qed.

Lemma recognize_FoundNewline (rem : bytes) :
  recognize rem = FoundNewline -> exists rest, rem = newline :: rest.
Proof.
  unfold recognize.
  destruct (Find commentRegex rem); [discriminate|].
  destruct rem as [|b rest]; [discriminate|].
  destruct (Find whitespaceRegex _); [discriminate|].
  destruct (find_from keywordRegex None _); [discriminate|].
  destruct (Byte.eqb b newline) eqn:E.
  - apply byte_dec_bl in E. subst b. now exists rest.
  - destruct (find _ symbols); [discriminate|].
    destruct (Find identifierRegex _); [discriminate|].
    destruct (string_end _); [discriminate|].
    destruct (Find numberRegex _); discriminate.
Qed.

Lemma recognize_FoundEOF (rem : bytes) :
  recognize rem = FoundEOF <-> rem = [].
Proof.
  split.
  - unfold recognize.
    destruct (Find commentRegex rem); [discriminate|].
    destruct rem as [|b rest]; [reflexivity|].
    destruct (Find whitespaceRegex _); [discriminate|].
    destruct (find_from keywordRegex None _); [discriminate|].
    destruct (Byte.eqb b newline); [discriminate|].
    destruct (find _ symbols); [discriminate|].
    destruct (Find identifierRegex _); [discriminate|].
    destruct (string_end _); [discriminate|].
    destruct (Find numberRegex _); discriminate.
  - intros ->. reflexivity.
Qed.

Lemma recognize_Found_type (rem : bytes) (typ : string) (val : bytes) (n : nat) :
  recognize rem = Found typ val n -> In typ text_types.
Proof.
  unfold recognize, text_types.
  destruct (Find commentRegex rem); [intros [= <- _ _]; simpl; tauto|].
  destruct rem as [|b rest]; [discriminate|].
  destruct (Find whitespaceRegex _); [intros [= <- _ _]; simpl; tauto|].
  destruct (find_from keywordRegex None _); [intros [= <- _ _]; simpl; tauto|].
  destruct (Byte.eqb b newline); [discriminate|].
  destruct (find _ symbols); [intros [= <- _ _]; simpl; tauto|].
  destruct (Find identifierRegex _); [intros [= <- _ _]; simpl; tauto|].
  destruct (string_end _); [intros [= <- _ _]; simpl; tauto|].
  destruct (Find numberRegex _); intros [= <- _ _]; simpl; tauto.
Qed.

Lemma text_types_not_EOF (typ : string) :
  In typ text_types -> typ <> TypeEOF /\ typ <> TypeNewline.
Proof.
  unfold text_types. simpl.
  intros H.
  repeat (destruct H as [<-|H];
          [split; intros H'; vm_compute in H'; discriminate|]).
  destruct H.
Qed.

(** Only [getStringConstant] makes String tokens. *)
Lemma recognize_String_inv (rem : bytes) (val : bytes) (n : nat) :
  recognize rem = Found TypeString val n ->
  exists i, string_end rem = Some i.
Proof.
  unfold recognize.
  destruct (Find commentRegex rem); [discriminate|].
  destruct rem as [|b rest]; [discriminate|].
  destruct (Find whitespaceRegex _); [discriminate|].
  destruct (find_from keywordRegex None _); [discriminate|].
  destruct (Byte.eqb b newline); [discriminate|].
  destruct (find _ symbols); [discriminate|].
  destruct (Find identifierRegex _); [discriminate|].
  destruct (string_end _) as [i|]; [now exists i|].
  destruct (Find numberRegex _); discriminate.
Qed.

(** Only [getKeyword] makes Keyword tokens. *)
Lemma recognize_Keyword_inv (rem : bytes) (val : bytes) (n : nat) :
  recognize rem = Found TypeKeyword val n ->
  exists m, find_from keywordRegex None rem = Some m /\
            val = fst m /\ n = length (fst m).
Proof.
  unfold recognize.
  destruct (Find commentRegex rem); [discriminate|].
  destruct rem as [|b rest]; [discriminate|].
  destruct (Find whitespaceRegex _); [discriminate|].
  destruct (find_from keywordRegex None _) as [m|].
  { intros [= <- <-]. now exists m. }
  destruct (Byte.eqb b newline); [discriminate|].
  destruct (find _ symbols); [discriminate|].
  destruct (Find identifierRegex _); [discriminate|].
  destruct (string_end _); [discriminate|].
  destruct (Find numberRegex _); discriminate.
Qed.

(** No recognizer before [getStringConstant] accepts a text that begins
    with a quote, and [getNumberConstant] does not either. *)
Lemma recognize_quote (s : bytes) :
  recognize (quote :: s)
  = match string_end (quote :: s) with
    | Some i => Found TypeString (firstn i s) (i + 2)
    | None => Found TypeUnknown [quote] 1
    end.
Proof.
  unfold recognize.
  assert (E1 : Find commentRegex (quote :: s) = None)
    by (etransitivity; [apply Find_anchored|]; vm_compute; reflexivity).
  assert (E2 : Find whitespaceRegex (quote :: s) = None)
    by (etransitivity; [apply Find_anchored|]; vm_compute; reflexivity).
  assert (E3 : find_from keywordRegex None (quote :: s) = None)
    by (etransitivity; [apply find_from_anchored|]; vm_compute; reflexivity).
  assert (E4 : Find identifierRegex (quote :: s) = None)
    by (etransitivity; [apply Find_anchored|]; vm_compute; reflexivity).
  assert (E5 : Find numberRegex (quote :: s) = None)
    by (etransitivity; [apply Find_anchored|]; vm_compute; reflexivity).
  rewrite E1, E2, E3, E4, E5. reflexivity.
Qed.

Lemma recognize_newline (rest : bytes) :
  recognize (newline :: rest) = FoundNewline.
Proof.
  unfold recognize.
  assert (E1 : Find commentRegex (newline :: rest) = None)
    by (etransitivity; [apply Find_anchored|]; vm_compute; reflexivity).
  assert (E2 : Find whitespaceRegex (newline :: rest) = None)
    by (etransitivity; [apply Find_anchored|]; vm_compute; reflexivity).
  assert (E3 : find_from keywordRegex None (newline :: rest) = None)
    by (etransitivity; [apply find_from_anchored|]; vm_compute; reflexivity).
  rewrite E1, E2, E3. reflexivity.
Qed.

(** On a text that begins with a keyword the recognizers tried before
    [getKeyword] find nothing. *)
Lemma recognize_keyword (kw rest : bytes) :
  In kw keywords ->
  is_word_at (hd_error rest) = false ->
  recognize (kw ++ rest) = Found TypeKeyword kw (length kw).
Proof.
  intros Hin Hb. unfold recognize.
  rewrite (find_keywordRegex_intro kw rest Hin Hb). cbn [fst].
  assert (E1 : Find commentRegex (kw ++ rest) = None).
  { etransitivity; [apply Find_anchored|]. simpl in Hin.
    repeat (destruct Hin as [<-|Hin]; [vm_compute; reflexivity|]).
    destruct Hin. }
  assert (E2 : Find whitespaceRegex (kw ++ rest) = None).
  { etransitivity; [apply Find_anchored|]. simpl in Hin.
    repeat (destruct Hin as [<-|Hin]; [vm_compute; reflexivity|]).
    destruct Hin. }
  rewrite E1, E2.
  simpl in Hin.
  repeat (destruct Hin as [<-|Hin]; [reflexivity|]).
  destruct Hin.
Qed.

Lemma recognize_colon_letter (l : byte) (s : bytes) :
  is_letter l = true ->
  recognize (lit ":" ++ l :: s)
  = Found TypeID (lit ":" ++ l :: run_of is_word s)
          (length (lit ":" ++ l :: run_of is_word s)).
Proof.
  intros Hl. unfold recognize.
  rewrite Find_identifierRegex_colon, find_keywordRegex_colon by assumption.
  assert (E1 : Find commentRegex (lit ":" ++ l :: s) = None)
    by (etransitivity; [apply Find_anchored|]; vm_compute; reflexivity).
  assert (E2 : Find whitespaceRegex (lit ":" ++ l :: s) = None)
    by (etransitivity; [apply Find_anchored|]; vm_compute; reflexivity).
  assert (E3 : find (HasPrefix (lit ":" ++ l :: s)) symbols = None)
    by (vm_compute; reflexivity).
  rewrite E1, E2, E3. reflexivity.
Qed.

Lemma Next_result_Pos (t : Tokenizer) :
  Pos (fst (Next_result t)) = NewPosition (line t) (column t).
Proof.
  unfold Next_result. now destruct (recognize (remaining t)).
Qed.

(** One call on a text that is not exhausted: a token that is not the
    end-of-input token, over at least one byte. *)
Lemma Next_result_progress (t : Tokenizer) :
  remaining t <> [] ->
  exists n, (1 <= n <= length (remaining t))%nat /\
    remaining (snd (Next_result t)) = skipn n (remaining t) /\
    Type_ (fst (Next_result t)) <> TypeEOF.
Proof.
  intros Hne. unfold Next_result.
  destruct (recognize (remaining t)) as [typ val n| |] eqn:E.
  - exists n. pose proof (recognize_Found _ _ _ _ E).
    apply recognize_Found_type, text_types_not_EOF in E as [E _].
    cbn [fst snd advanced remaining Type_ token_at]. auto.
  - apply recognize_FoundNewline in E as [rest E]. exists 1%nat.
    cbn [fst snd next_line remaining Type_ token_at]. rewrite E.
    cbn [length skipn].
    repeat split; [lia|lia|intros H; vm_compute in H; discriminate].
  - apply recognize_FoundEOF in E. contradiction.
Qed.

Lemma Next_result_EOF (t : Tokenizer) :
  remaining t = [] -> Next_result t = (token_at t TypeEOF [], t).
Proof.
  intros E. unfold Next_result.
  now replace (recognize (remaining t)) with FoundEOF
    by (symmetry; now apply recognize_FoundEOF).
Qed.

(* ===================================================================== *)
(** ** Escaped and unescaped quotes *)
(* ===================================================================== *)

Lemma escaped_after_snoc (p : bytes) (b : byte) :
  escaped_after (p ++ [b]) = escape_step (escaped_after p) b.
Proof. unfold escaped_after. now rewrite fold_left_app. Qed.

Lemma escaped_after_parity (s : bytes) :
  escaped_after s = Nat.odd (trailing_backslashes s).
Proof.
  induction s as [|b s IH] using rev_ind; [reflexivity|].
  rewrite escaped_after_snoc, IH. unfold trailing_backslashes, escape_step.
  rewrite !rev_app_distr. simpl.
  destruct (Byte.eqb b backslash); [|reflexivity].
  now rewrite Nat.odd_succ, <- Nat.negb_odd.
Qed.

(** The loop of [getStringConstant], started at index [length p] with the
    flag the prefix [p] leaves, stops at the first unescaped quote from
    there on, and only fails when there is none. *)
Lemma getStringConstant_loop_spec (s p : bytes) :
  match getStringConstant_loop s (length p) (escaped_after p) with
  | Some k =>
      (length p <= k)%nat /\ unescaped_quote (p ++ s) k /\
      forall j, (length p <= j < k)%nat -> ~ unescaped_quote (p ++ s) j
  | None => forall j, (length p <= j)%nat -> ~ unescaped_quote (p ++ s) j
  end.
Proof.
  revert p. induction s as [|b s IH]; intros p.
  - simpl. intros j Hj [Hq _]. rewrite app_nil_r in Hq.
    apply nth_error_None in Hj. congruence.
  - assert (Hhere : forall j, j = length p -> unescaped_quote (p ++ b :: s) j ->
                    b = quote /\ escaped_after p = false).
    { intros j -> [Hq He]. rewrite nth_error_app2, Nat.sub_diag in Hq by lia.
      injection Hq as ->. now rewrite firstn_app, firstn_all, Nat.sub_diag,
                                firstn_0, app_nil_r in He. }
    specialize (IH (p ++ [b])).
    rewrite length_app, escaped_after_snoc, <- app_assoc in IH.
    simpl in IH. rewrite Nat.add_1_r in IH.
    cbn [getStringConstant_loop].
    destruct (escaped_after p) eqn:Ep.
    + (* the byte is escaped *)
      unfold escape_step in IH. rewrite andb_false_r in IH.
      destruct (getStringConstant_loop s (S (length p)) false) as [k|].
      * destruct IH as (Hk & Hq & Hmin). repeat split; [lia|apply Hq|apply Hq|].
        intros j Hj Hu. destruct (Nat.eq_dec j (length p)) as [->|Hne].
        -- now destruct (Hhere _ eq_refl Hu).
        -- apply (Hmin j); [lia|assumption].
      * intros j Hj Hu. destruct (Nat.eq_dec j (length p)) as [->|Hne].
        -- now destruct (Hhere _ eq_refl Hu).
        -- apply (IH j); [lia|assumption].
    + unfold escape_step in IH. rewrite andb_true_r in IH.
      destruct (Byte.eqb b quote) eqn:Eq.
      * (* an unescaped quote *)
        apply byte_dec_bl in Eq. subst b.
        change (Byte.eqb quote backslash) with false. cbn [negb andb].
        repeat split; [lia| | |intros j Hj; lia].
        -- rewrite nth_error_app2, Nat.sub_diag by lia. reflexivity.
        -- now rewrite firstn_app, firstn_all, Nat.sub_diag, firstn_0, app_nil_r.
      * cbn [andb].
        replace (if Byte.eqb b backslash then true else false)
          with (Byte.eqb b backslash) by now destruct (Byte.eqb b backslash).
        destruct (getStringConstant_loop s (S (length p)) (Byte.eqb b backslash))
          as [k|].
        -- destruct IH as (Hk & Hq & Hmin).
           repeat split; [lia|apply Hq|apply Hq|].
           intros j Hj Hu. destruct (Nat.eq_dec j (length p)) as [->|Hne].
           ++ destruct (Hhere _ eq_refl Hu) as [-> _]. discriminate.
           ++ apply (Hmin j); [lia|assumption].
        -- intros j Hj Hu. destruct (Nat.eq_dec j (length p)) as [->|Hne].
           ++ destruct (Hhere _ eq_refl Hu) as [-> _]. discriminate.
           ++ apply (IH j); [lia|assumption].
Qed.

Lemma first_unescaped_quote_unique (s : bytes) (k k' : nat) :
  first_unescaped_quote s k -> first_unescaped_quote s k' -> k = k'.
Proof.
  intros [Hk Hmin] [Hk' Hmin'].
  destruct (Nat.lt_trichotomy k k') as [H|[H|H]]; [|assumption|].
  - now destruct (Hmin' _ H).
  - now destruct (Hmin _ H).
Qed.

(** [string_end] on a text that begins with a quote. *)
Lemma string_end_spec (s : bytes) :
  match string_end (quote :: s) with
  | Some k => first_unescaped_quote s k
  | None => forall j, ~ unescaped_quote s j
  end.
Proof.
  unfold string_end. cbn [length skipn].
  change (Byte.eqb quote quote) with true. cbn [negb orb].
  destruct s as [|b s].
  - simpl. intros j [Hq _]. destruct j; discriminate.
  - replace (S (length (b :: s)) <? 2)%nat with false
      by (symmetry; apply Nat.ltb_ge; simpl; lia).
    pose proof (getStringConstant_loop_spec (b :: s) []) as H.
    cbn [length app] in H. change (escaped_after []) with false in H.
    destruct (getStringConstant_loop (b :: s) 0 false) as [k|].
    + destruct H as (_ & Hq & Hmin). split; [assumption|].
      intros j Hj. apply Hmin. lia.
    + intros j. apply H. lia.
Qed.

Lemma string_end_Some_inv (rem : bytes) (i : nat) :
  string_end rem = Some i ->
  exists s, rem = quote :: s /\ first_unescaped_quote s i.
Proof.
  intros H. destruct rem as [|b s]; [discriminate|].
  destruct (Byte.eqb b quote) eqn:E.
  - apply byte_dec_bl in E. subst b. exists s. split; [reflexivity|].
    pose proof (string_end_spec s) as Hs. now rewrite H in Hs.
  - unfold string_end in H. rewrite E in H. cbn [negb] in H.
    rewrite orb_true_r in H. discriminate.
Qed.

(** On a text that begins with a quote, with its first unescaped quote at
    index [k] after it: the String token of the bytes in between. *)
Lemma Next_result_string_literal (t : Tokenizer) (s : bytes) (k : nat) :
  remaining t = quote :: s ->
  first_unescaped_quote s k ->
  Next_result t = (token_at t TypeString (firstn k s), advanced (k + 2) t) /\
  remaining (advanced (k + 2) t) = skipn (S k) s.
Proof.
  intros E Hk. pose proof (string_end_spec s) as Hs.
  destruct (string_end (quote :: s)) as [k'|] eqn:Ek;
    [|now destruct Hk as [Hk _]; destruct (Hs k)].
  assert (k' = k) by (eapply first_unescaped_quote_unique; eassumption).
  subst k'. unfold Next_result. rewrite E, recognize_quote, Ek.
  split; [reflexivity|]. cbn [advanced remaining]. rewrite E.
  now replace (k + 2)%nat with (S (S k)) by lia.
Qed.

(** After a quote the flag is unset whatever came before. *)
Lemma escaped_after_app_quote (a b : bytes) :
  escaped_after (a ++ quote :: b) = escaped_after b.
Proof.
  unfold escaped_after. rewrite fold_left_app. cbn [fold_left].
  unfold escape_step at 2. reflexivity.
Qed.

Lemma unescaped_quote_after_quote (pre r : bytes) (k : nat) :
  unescaped_quote r k -> unescaped_quote (pre ++ quote :: r) (length pre + 1 + k).
Proof.
  intros [Hq He]. split.
  - rewrite nth_error_app2 by lia.
    replace (length pre + 1 + k - length pre)%nat with (S k) by lia.
    exact Hq.
  - rewrite firstn_app, firstn_all2 by lia.
    replace (length pre + 1 + k - length pre)%nat with (S k) by lia.
    cbn [firstn]. now rewrite escaped_after_app_quote.
Qed.

Lemma unterminated_intro (s : bytes) :
  (forall k, ~ unescaped_quote s k) -> unterminated (quote :: s).
Proof.
  intros H pre r E k Hk. destruct pre as [|b pre].
  - injection E as <-. now apply (H k).
  - injection E as _ ->.
    now apply (H (length pre + 1 + k)%nat), unescaped_quote_after_quote.
Qed.

Lemma unterminated_skipn (n : nat) (rem : bytes) :
  unterminated rem -> unterminated (skipn n rem).
Proof.
  intros H pre r E. apply (H (firstn n rem ++ pre)).
  now rewrite <- app_assoc, <- E, firstn_skipn.
Qed.

Lemma no_unescaped_quote_without_quote (s : bytes) :
  forallb (fun b => negb (Byte.eqb b quote)) s = true ->
  forall k, ~ unescaped_quote s k.
Proof.
  intros H k [Hq _]. apply nth_error_In in Hq.
  rewrite forallb_forall in H. apply H in Hq. discriminate.
Qed.

Lemma lower_byte_not_upper (b : byte) : is_upper (lower_byte b) = false.
Proof. destruct b; reflexivity. Qed.

Lemma lower_byte_eqb_quote (b : byte) :
  Byte.eqb (lower_byte b) quote = Byte.eqb b quote.
Proof. destruct b; reflexivity. Qed.

Lemma lower_byte_eqb_backslash (b : byte) :
  Byte.eqb (lower_byte b) backslash = Byte.eqb b backslash.
Proof. destruct b; reflexivity. Qed.

Lemma lower_byte_quote (b : byte) : lower_byte b = quote <-> b = quote.
Proof.
  split; intros H.
  - apply byte_dec_bl. rewrite <- (lower_byte_eqb_quote b).
    apply byte_dec_lb. exact H.
  - rewrite H. reflexivity.
Qed.

Lemma escaped_after_lower (s : bytes) :
  escaped_after (map lower_byte s) = escaped_after s.
Proof.
  unfold escaped_after. generalize false.
  induction s as [|b s IH]; intros e; [reflexivity|].
  cbn [map fold_left]. unfold escape_step at 2 4.
  now rewrite lower_byte_eqb_backslash, IH.
Qed.

Lemma unescaped_quote_lower (s : bytes) (k : nat) :
  unescaped_quote (map lower_byte s) k <-> unescaped_quote s k.
Proof.
  unfold unescaped_quote.
  rewrite firstn_map, escaped_after_lower, nth_error_map.
  destruct (nth_error s k) as [b|]; cbn [option_map].
  - split; intros [H1 H2]; (split; [|assumption]).
    + injection H1 as H1. apply (proj1 (lower_byte_quote b)) in H1.
      now rewrite H1.
    + injection H1 as H1. now rewrite H1.
  - split; intros [H1 _]; discriminate.
Qed.

Lemma first_unescaped_quote_lower (s : bytes) (k : nat) :
  first_unescaped_quote (map lower_byte s) k <-> first_unescaped_quote s k.
Proof.
  unfold first_unescaped_quote. rewrite unescaped_quote_lower.
  split; intros [H Hmin]; (split; [assumption|]); intros j Hj Hu;
    apply (Hmin j Hj); now apply unescaped_quote_lower.
Qed.

Lemma ToLower_ascii (s : bytes) :
  forallb is_ascii s = true -> ToLower unicode_ToLower s = map lower_byte s.
Proof. intros H. unfold ToLower. now rewrite H. Qed.

(* ===================================================================== *)
(** ** Sequences of calls *)
(* ===================================================================== *)

Lemma Next_n_eq (n : nat) (t : Tokenizer) :
  Next_n n t = Ok (Next_n_result n t).
Proof.
  revert t. induction n as [|n IH]; intros t; [reflexivity|].
  cbn [Next_n Next_n_result]. unfold bind at 1. rewrite Next_eq.
  destruct (Next_result t) as [tok t1]. unfold bind at 1. rewrite IH.
  cbn [fst snd]. now destruct (Next_n_result n t1).
Qed.

Lemma Next_n_result_length (n : nat) (t : Tokenizer) :
  length (fst (Next_n_result n t)) = n.
Proof.
  revert t. induction n as [|n IH]; intros t; simpl; [reflexivity|].
  now rewrite IH.
Qed.

Lemma Load_eq (input : bytes) (t : Tokenizer) :
  Load input t
  = Ok (tt, {| column := 1; line := 1; text := input;
               remaining := ToLower unicode_ToLower input |}).
Proof. reflexivity. Qed.

(** From any state the stream turns into end-of-input tokens, for good,
    after at most as many calls as bytes remain. *)
Lemma Next_n_result_eventually_EOF (t : Tokenizer) :
  exists n, (n <= length (remaining t))%nat /\
    forall m i tok, nth_error (fst (Next_n_result m t)) i = Some tok ->
      ((n <= i)%nat <-> Type_ tok = TypeEOF) /\
      (Type_ tok = TypeEOF -> Value tok = []).
Proof.
  remember (length (remaining t)) as k eqn:Hk.
  revert t Hk. induction k as [k IH] using lt_wf_ind. intros t Hk.
  destruct (remaining t) as [|b rest] eqn:E.
  - exists 0%nat. split; [lia|].
    assert (Hall : forall m, Forall (fun tok => tok = token_at t TypeEOF [])
                                    (fst (Next_n_result m t))).
    { induction m as [|m IHm]; simpl; [constructor|].
      rewrite Next_result_EOF by assumption. now constructor. }
    intros m i tok Hi. specialize (Hall m).
    rewrite Forall_forall in Hall. apply nth_error_In, Hall in Hi. subst tok.
    cbn. split; [split; [reflexivity|lia]|reflexivity].
  - try rewrite <- E in Hk.
    destruct (Next_result_progress t) as (n & Hn & Hrem & Htyp);
      [congruence|].
    destruct (IH (length (remaining (snd (Next_result t)))))
      with (t := snd (Next_result t)) as (n1 & Hn1 & Hrest);
      [rewrite Hrem, length_skipn; lia|reflexivity|].
    exists (S n1). rewrite Hrem, length_skipn in Hn1. split; [lia|].
    intros [|m] i tok Hi; [destruct i; discriminate|].
    cbn [Next_n_result fst] in Hi. destruct i as [|i].
    + injection Hi as <-. split; [split; [lia|contradiction]|contradiction].
    + cbn [nth_error] in Hi. apply Hrest in Hi as [[H1 H2] H3].
      split; [split; [intros; apply H1; lia|intros; apply H2 in H; lia]|assumption].
Qed.

Lemma Next_result_unterminated (t : Tokenizer) :
  unterminated (remaining t) ->
  Type_ (fst (Next_result t)) <> TypeString /\
  unterminated (remaining (snd (Next_result t))).
Proof.
  intros H. unfold Next_result.
  destruct (recognize (remaining t)) as [typ val n| |] eqn:E;
    cbn [fst snd Type_ token_at advanced next_line remaining].
  - split; [|now apply unterminated_skipn].
    intros ->. apply recognize_String_inv in E as [i E].
    apply string_end_Some_inv in E as (s & E & [Hq _]).
    now apply (H [] s E i).
  - split; [intros H'; vm_compute in H'; discriminate|].
    now apply unterminated_skipn.
  - split; [intros H'; vm_compute in H'; discriminate|assumption].
Qed.

Lemma Next_n_result_unterminated (n : nat) (t : Tokenizer) :
  unterminated (remaining t) ->
  Forall (fun tok => Type_ tok <> TypeString) (fst (Next_n_result n t)).
Proof.
  revert t. induction n as [|n IH]; intros t H; cbn [Next_n_result fst].
  - constructor.
  - destruct (Next_result_unterminated t H) as [H1 H2].
    constructor; [assumption|now apply IH].
Qed.

Lemma Next_result_counters (bound : Z) (t : Tokenizer) :
  bound <= int_max -> counters_within bound t ->
  counters_within bound (snd (Next_result t)) /\
  ((Type_ (fst (Next_result t)) = TypeNewline /\
    line (snd (Next_result t)) = line t + 1 /\
    column (snd (Next_result t)) = 1) \/
   (Type_ (fst (Next_result t)) <> TypeNewline /\
    line (snd (Next_result t)) = line t /\
    column t <= column (snd (Next_result t)))).
Proof.
  intros Hb (Hc & Hl & Hcb & Hlb). unfold Next_result, counters_within, len in *.
  destruct (recognize (remaining t)) as [typ val n| |] eqn:E;
    cbn [fst snd Type_ token_at advanced next_line remaining column line].
  - pose proof (recognize_Found _ _ _ _ E) as Hn.
    apply recognize_Found_type, text_types_not_EOF in E as [_ E].
    rewrite length_skipn. unfold int_add.
    rewrite wrap_small by (unfold int_min, int_max in *; lia).
    split; [lia|]. right. split; [assumption|lia].
  - apply recognize_FoundNewline in E as [rest E]. rewrite E in *.
    cbn [skipn length] in *. unfold int_add.
    rewrite !wrap_small by (unfold int_min, int_max in *; lia).
    split; [lia|]. left. split; [reflexivity|lia].
  - split; [lia|]. right.
    split; [intros H; vm_compute in H; discriminate|lia].
Qed.

Lemma Next_n_result_follows (bound : Z) (n : nat) :
  bound <= int_max ->
  forall t, counters_within bound t ->
  forall i a b,
    nth_error (fst (Next_n_result n t)) i = Some a ->
    nth_error (fst (Next_n_result n t)) (S i) = Some b ->
    follows a b.
Proof.
  intros Hb. induction n as [|n IH]; intros t Hinv i a b Ha Hb'.
  - destruct i; discriminate.
  - cbn [Next_n_result fst] in Ha, Hb'.
    destruct (Next_result_counters bound t Hb Hinv) as [Hinv1 Hstep].
    destruct i as [|i].
    + injection Ha as <-. cbn [nth_error] in Hb'.
      destruct n as [|n]; [discriminate|].
      cbn [Next_n_result fst nth_error] in Hb'. injection Hb' as <-.
      unfold follows. rewrite !Next_result_Pos. cbn [Line Coloumn]. exact Hstep.
    + cbn [nth_error] in Ha, Hb'. exact (IH _ Hinv1 i a b Ha Hb').
Qed.

Lemma follows_pos_le (a b : Token) : follows a b -> pos_le (Pos a) (Pos b).
Proof. unfold follows, pos_le. lia. Qed.

Lemma find_first (A : Type) (f : A -> bool) (l : list A) (i : nat) (x : A) :
  nth_error l i = Some x -> f x = true ->
  (forall j y, (j < i)%nat -> nth_error l j = Some y -> f y = false) ->
  find f l = Some x.
Proof.
  revert i. induction l as [|a l IH]; intros i Hi Hx Hbefore.
  - destruct i; discriminate.
  - destruct i as [|i]; simpl in *.
    + injection Hi as ->. now rewrite Hx.
    + rewrite (Hbefore 0%nat a) by (lia || reflexivity).
      apply (IH i); [assumption..|].
      intros j y Hj Hy. apply (Hbefore (S j)); [lia|assumption].
Qed.

Lemma find_none_intro (A : Type) (f : A -> bool) (l : list A) :
  (forall x, In x l -> f x = false) -> find f l = None.
Proof.
  induction l as [|a l IH]; intros H; simpl; [reflexivity|].
  rewrite (H a) by now left. apply IH. intros x Hx. apply H. now right.
Qed.

(** *** Case normalization *)

Lemma no_capital_firstn_skipn (n : nat) (s : bytes) :
  no_capital s -> no_capital (firstn n s) /\ no_capital (skipn n s).
Proof.
  unfold no_capital. intros H. rewrite <- (firstn_skipn n s) in H.
  now apply Forall_app in H.
Qed.

Lemma no_capital_prefix (p rest : bytes) :
  no_capital (p ++ rest) -> no_capital p.
Proof. unfold no_capital. intros H. now apply Forall_app in H. Qed.

Lemma no_capital_lower (s : bytes) : no_capital (map lower_byte s).
Proof.
  apply Forall_forall. intros b Hb. apply in_map_iff in Hb as (b' & <- & _).
  apply lower_byte_not_upper.
Qed.

Lemma no_capital_string_of_byte (b : byte) :
  is_upper b = false -> no_capital (string_of_byte b).
Proof.
  unfold no_capital.
  destruct b; intros H; try discriminate H; repeat constructor.
Qed.

(** The value of a token is cut from the unconsumed text. *)
Lemma recognize_no_capital (rem : bytes) (typ : string) (val : bytes) (n : nat) :
  no_capital rem -> recognize rem = Found typ val n -> no_capital val.
Proof.
  intros H. unfold recognize.
  destruct (Find commentRegex rem) as [f|] eqn:E1.
  { intros [= _ <- _]. apply Find_anchored_prefix in E1 as [[rest ->] _].
    now apply no_capital_prefix in H. }
  destruct rem as [|b rest] eqn:E; [discriminate|]. rewrite <- E in *.
  destruct (Find whitespaceRegex rem) as [f|] eqn:E2.
  { intros [= _ <- _]. apply Find_anchored_prefix in E2 as [[rest' E2] _].
    rewrite E2 in H. now apply no_capital_prefix in H. }
  destruct (find_from keywordRegex None rem) as [m|] eqn:E3.
  { intros [= _ <- _].
    apply find_keywordRegex_inv in E3 as (kw & rest' & _ & E3 & -> & _).
    rewrite E3 in H. now apply no_capital_prefix in H. }
  destruct (Byte.eqb b newline); [discriminate|].
  destruct (find (HasPrefix rem) symbols) as [sym|] eqn:E4.
  { intros [= _ <- _]. apply find_some in E4 as [_ Hp].
    apply HasPrefix_inv in Hp as [rest' Hp].
    rewrite Hp in H. now apply no_capital_prefix in H. }
  destruct (Find identifierRegex rem) as [f|] eqn:E5.
  { intros [= _ <- _]. apply Find_anchored_prefix in E5 as [[rest' E5] _].
    rewrite E5 in H. now apply no_capital_prefix in H. }
  destruct (string_end rem) as [i|] eqn:E6.
  { intros [= _ <- _].
    exact (proj1 (no_capital_firstn_skipn i _
                    (proj2 (no_capital_firstn_skipn 1 _ H)))). }
  destruct (Find numberRegex rem) as [f|] eqn:E7.
  { intros [= _ <- _]. apply Find_anchored_prefix in E7 as [[rest' E7] _].
    rewrite E7 in H. now apply no_capital_prefix in H. }
  intros [= _ <- _]. apply no_capital_string_of_byte.
  rewrite E in H. now inversion H.
Qed.

Lemma Next_result_no_capital (t : Tokenizer) :
  no_capital (remaining t) ->
  no_capital (Value (fst (Next_result t))) /\
  no_capital (remaining (snd (Next_result t))).
Proof.
  intros H. unfold Next_result.
  destruct (recognize (remaining t)) as [typ val n| |] eqn:E;
    cbn [fst snd Value token_at advanced next_line remaining].
  - split; [now apply (recognize_no_capital _ _ _ _ H E)|].
    now apply no_capital_firstn_skipn.
  - split; [constructor|now apply no_capital_firstn_skipn].
  - split; [constructor|assumption].
Qed.

Lemma Next_n_result_no_capital (n : nat) (t : Tokenizer) :
  no_capital (remaining t) ->
  Forall (fun tok => no_capital (Value tok)) (fst (Next_n_result n t)).
Proof.
  revert t. induction n as [|n IH]; intros t H; cbn [Next_n_result fst].
  - constructor.
  - destruct (Next_result_no_capital t H) as [H1 H2].
    constructor; [assumption|now apply IH].
Qed.

(* ===================================================================== *)
(** ** The properties of the specification *)
(* ===================================================================== *)

(** C1, as amended.  Tokenizing the comment line gives one Comment token
    whose value is the whole match, the two slashes included and the line
    feed excluded, then a Newline token; in general the value of a Comment
    token is the whole text the pattern matches: the leading blanks, the two
    slashes and the bytes up to the next line feed. *)
Theorem comment_token_keeps_slashes :
  tokenize hello_line 3
  = Ok [ {| Type_ := TypeComment; Value := lit "// hello";
            Pos := NewPosition 1 1 |};
         {| Type_ := TypeNewline; Value := []; Pos := NewPosition 1 9 |};
         {| Type_ := TypeEOF; Value := []; Pos := NewPosition 2 1 |} ] /\
  (forall t blanks body rest,
     forallb is_blank blanks = true ->
     forallb not_newline body = true ->
     stops not_newline rest = true ->
     remaining t = blanks ++ lit "//" ++ body ++ rest ->
     Next t = Ok (token_at t TypeComment (blanks ++ lit "//" ++ body),
                  advanced (length (blanks ++ lit "//" ++ body)) t) /\
     remaining (advanced (length (blanks ++ lit "//" ++ body)) t) = rest).
Proof.
  split; [vm_compute; reflexivity|].
  intros t blanks body rest Hblanks Hbody Hrest E.
  rewrite Next_eq. unfold Next_result, recognize.
  rewrite E, Find_commentRegex_line by assumption.
  split; [reflexivity|]. cbn [advanced remaining]. rewrite E.
  replace (blanks ++ lit "//" ++ body ++ rest)
    with ((blanks ++ lit "//" ++ body) ++ rest)
    by now rewrite <- !app_assoc.
  apply skipn_app_exact.
Qed.

(** C2.  When the unconsumed text begins with a quote and holds an unescaped
    quote further on, [Next] returns a String token whose value is the raw
    text between the opening quote and the first unescaped quote, escape
    sequences untouched, and the cursor stands right after that quote. *)
Theorem Next_string_literal (t : Tokenizer) (s : bytes) :
  remaining t = quote :: s ->
  (exists j, unescaped_quote s j) ->
  exists k,
    first_unescaped_quote s k /\
    Next t = Ok (token_at t TypeString (firstn k s), advanced (k + 2) t) /\
    remaining (advanced (k + 2) t) = skipn (S k) s /\
    (2 <= length (remaining t))%nat.
Proof.
  intros E [j Hj]. pose proof (string_end_spec s) as Hs.
  destruct (string_end (quote :: s)) as [k|] eqn:Ek; [|now destruct (Hs j)].
  exists k. split; [assumption|].
  destruct (Next_result_string_literal t s k E Hs) as [HN Hrem].
  rewrite Next_eq, HN. split; [reflexivity|]. split; [assumption|].
  apply string_end_bound in Ek. rewrite E. lia.
Qed.

(** C3, as amended.  When the unconsumed text begins with a quote and has no
    unescaped quote after it, [Next] returns an Unknown token that holds the
    quote alone and consumes that byte; no call from then on panics or
    returns a String token; the text after the quote goes through the
    ordinary recognizers (for the quote followed by abc: Unknown, then the
    identifier abc, then end of input). *)
Theorem Next_unterminated_string (t : Tokenizer) (s : bytes) :
  remaining t = quote :: s ->
  (forall k, ~ unescaped_quote s k) ->
  Next t = Ok (token_at t TypeUnknown [quote], advanced 1 t) /\
  (forall n, exists toks t',
     Next_n n t = Ok (toks, t') /\ length toks = n /\
     Forall (fun tok => Type_ tok <> TypeString) toks) /\
  tokenize unterminated_abc 3
  = Ok [ {| Type_ := TypeUnknown; Value := [quote]; Pos := NewPosition 1 1 |};
         {| Type_ := TypeID; Value := lit "abc"; Pos := NewPosition 1 2 |};
         {| Type_ := TypeEOF; Value := []; Pos := NewPosition 1 5 |} ].
Proof.
  intros E H. split; [|split].
  - rewrite Next_eq. unfold Next_result. rewrite E, recognize_quote.
    pose proof (string_end_spec s) as Hs.
    destruct (string_end (quote :: s)) as [k|]; [|reflexivity].
    destruct Hs as [Hq _]. now destruct (H k).
  - intros n. exists (fst (Next_n_result n t)), (snd (Next_n_result n t)).
    rewrite Next_n_eq. split; [now destruct (Next_n_result n t)|].
    split; [apply Next_n_result_length|].
    apply Next_n_result_unterminated. rewrite E. now apply unterminated_intro.
  - vm_compute. reflexivity.
Qed.

(** C4.  While unconsumed text remains a call of [Next] consumes at least one
    byte and returns a token that is not the end-of-input token; on exhausted
    text it returns the end-of-input token, with empty value, and leaves the
    tokenizer as it is; so after [Load] the calls return end-of-input tokens
    from some call on, and for good: no later than the call after as many
    calls as the lowercased input has bytes. *)
Theorem Next_terminates_with_EOF (input : bytes) :
  (forall t, remaining t <> [] ->
     exists tok t' n,
       Next t = Ok (tok, t') /\ (1 <= n <= length (remaining t))%nat /\
       remaining t' = skipn n (remaining t) /\ Type_ tok <> TypeEOF) /\
  (forall t, remaining t = [] -> Next t = Ok (token_at t TypeEOF [], t)) /\
  exists n, (n <= length (ToLower unicode_ToLower input))%nat /\
    forall m, exists toks t',
      (Load input ;; Next_n m) NewTokenizer = Ok (toks, t') /\
      length toks = m /\
      forall i tok, nth_error toks i = Some tok ->
        ((n <= i)%nat <-> Type_ tok = TypeEOF) /\
        (Type_ tok = TypeEOF -> Value tok = []).
Proof.
  split; [|split].
  - intros t Hne. destruct (Next_result_progress t Hne) as (n & Hn & Hrem & Ht).
    exists (fst (Next_result t)), (snd (Next_result t)), n.
    rewrite Next_eq. now destruct (Next_result t).
  - intros t E. now rewrite Next_eq, Next_result_EOF.
  - set (t0 := {| column := 1; line := 1; text := input;
                  remaining := ToLower unicode_ToLower input |}).
    destruct (Next_n_result_eventually_EOF t0) as (n & Hn & H).
    exists n. split; [exact Hn|].
    intros m. exists (fst (Next_n_result m t0)), (snd (Next_n_result m t0)).
    unfold bind. rewrite Load_eq. fold t0. rewrite Next_n_eq.
    split; [now destruct (Next_n_result m t0)|].
    split; [apply Next_n_result_length|apply H].
Qed.

(** C5.  The text [>=] is one Symbol token and the text [>] is one Symbol
    token; [getSymbol] returns the first entry of [symbols] that is a prefix
    of the unconsumed text and nothing when there is none; and in [symbols]
    no entry is a proper prefix of a later one, so the two-byte operators
    come before the one-byte operators they begin with. *)
Theorem getSymbol_first_listed_prefix :
  tokenize (lit ">=") 2
  = Ok [ {| Type_ := TypeSymbol; Value := lit ">="; Pos := NewPosition 1 1 |};
         {| Type_ := TypeEOF; Value := []; Pos := NewPosition 1 3 |} ] /\
  tokenize (lit ">") 2
  = Ok [ {| Type_ := TypeSymbol; Value := lit ">"; Pos := NewPosition 1 1 |};
         {| Type_ := TypeEOF; Value := []; Pos := NewPosition 1 2 |} ] /\
  (forall t i symbol,
     nth_error symbols i = Some symbol ->
     HasPrefix (remaining t) symbol = true ->
     (forall j other, (j < i)%nat -> nth_error symbols j = Some other ->
                      HasPrefix (remaining t) other = false) ->
     getSymbol t
     = Ok (Some (token_at t TypeSymbol symbol), advanced (length symbol) t)) /\
  (forall t,
     (forall symbol, In symbol symbols ->
                     HasPrefix (remaining t) symbol = false) ->
     getSymbol t = Ok (None, t)) /\
  (forall i j a b,
     (i < j)%nat -> nth_error symbols i = Some a ->
     nth_error symbols j = Some b -> HasPrefix b a = true ->
     length a = length b).
Proof.
  split; [vm_compute; reflexivity|].
  split; [vm_compute; reflexivity|].
  split; [|split].
  - intros t i symbol Hi Hp Hbefore. unfold getSymbol.
    rewrite getSymbol_loop_eq.
    now rewrite (find_first _ (HasPrefix (remaining t)) symbols i symbol).
  - intros t H. unfold getSymbol. rewrite getSymbol_loop_eq.
    now rewrite find_none_intro.
  - intros i j a b Hij Ha Hb Hp.
    assert (Hord : symbols_ordered = true) by (vm_compute; reflexivity).
    unfold symbols_ordered in Hord. rewrite forallb_forall in Hord.
    assert (Hj : (j < length symbols)%nat)
      by (apply nth_error_Some; congruence).
    specialize (Hord j). rewrite in_seq in Hord.
    specialize (Hord ltac:(lia)). rewrite forallb_forall in Hord.
    specialize (Hord i). rewrite in_seq in Hord.
    specialize (Hord ltac:(lia)). rewrite Ha, Hb, Hp in Hord.
    now apply Nat.eqb_eq in Hord.
Qed.

(** C6.  The text ifx is one identifier.  A Keyword token is only returned
    when the unconsumed text begins with one of the eight words and a word
    boundary follows the word, and then its value is that word; and every
    such text gives the Keyword token of its word.  No boundary is needed
    before the word in the input: the pattern tests its leading boundary at
    the beginning of the unconsumed text, where it holds for every text that
    begins with one of the words, so the byte consumed before the word
    plays no part.  After the number 1, and after an underscore, the word if
    is a keyword. *)
Theorem keyword_needs_boundary_after :
  tokenize (lit "ifx") 2
  = Ok [ {| Type_ := TypeID; Value := lit "ifx"; Pos := NewPosition 1 1 |};
         {| Type_ := TypeEOF; Value := []; Pos := NewPosition 1 4 |} ] /\
  (forall t tok t',
     Next t = Ok (tok, t') -> Type_ tok = TypeKeyword ->
     exists kw rest,
       In kw keywords /\ remaining t = kw ++ rest /\
       word_boundary (last (map Some kw) None) (hd_error rest) = true /\
       is_word_at (hd_error rest) = false /\
       tok = token_at t TypeKeyword kw /\ t' = advanced (length kw) t) /\
  (forall t kw rest,
     In kw keywords -> remaining t = kw ++ rest ->
     word_boundary (last (map Some kw) None) (hd_error rest) = true ->
     Next t = Ok (token_at t TypeKeyword kw, advanced (length kw) t)) /\
  (forall kw rest,
     In kw keywords -> word_boundary None (hd_error (kw ++ rest)) = true) /\
  tokenize (lit "1if") 3
  = Ok [ {| Type_ := TypeNumber; Value := lit "1"; Pos := NewPosition 1 1 |};
         {| Type_ := TypeKeyword; Value := lit "if"; Pos := NewPosition 1 2 |};
         {| Type_ := TypeEOF; Value := []; Pos := NewPosition 1 4 |} ] /\
  tokenize (lit "_if") 3
  = Ok [ {| Type_ := TypeUnknown; Value := lit "_"; Pos := NewPosition 1 1 |};
         {| Type_ := TypeKeyword; Value := lit "if"; Pos := NewPosition 1 2 |};
         {| Type_ := TypeEOF; Value := []; Pos := NewPosition 1 4 |} ].
Proof.
  split; [vm_compute; reflexivity|].
  split; [|split; [|split; [|split; vm_compute; reflexivity]]].
  - intros t tok t' H Htyp. rewrite Next_eq in H. injection H as H.
    assert (Ht : tok = fst (Next_result t) /\ t' = snd (Next_result t))
      by now rewrite H.
    destruct Ht as [-> ->]. clear H. unfold Next_result in *.
    destruct (recognize (remaining t)) as [typ val n| |] eqn:E;
      cbn [fst snd Type_ token_at] in Htyp |- *;
      [|vm_compute in Htyp; discriminate..].
    subst typ. apply recognize_Keyword_inv in E as (m & E & -> & ->).
    apply find_keywordRegex_inv in E as (kw & rest & Hin & E & -> & B1 & B2).
    exists kw, rest. cbn [fst]. repeat split; try assumption.
    unfold word_boundary in B2.
    rewrite keyword_last_is_word in B2 by assumption.
    now destruct (is_word_at (hd_error rest)).
  - intros t kw rest Hin E B. rewrite Next_eq. unfold Next_result.
    rewrite E, recognize_keyword; [reflexivity|assumption|].
    unfold word_boundary in B. rewrite keyword_last_is_word in B by assumption.
    now destruct (is_word_at (hd_error rest)).
  - intros kw rest Hin. simpl in Hin.
    repeat (destruct Hin as [<-|Hin]; [reflexivity|]). destruct Hin.
Qed.

(** C8.  On a text that begins with a line feed [Next] returns a Newline
    token with empty value at the line and column of the state it is called
    in; [getNewline] adds one to the line, sets the column to 0 and advances
    by one byte, which leaves the column at 1; so the next token is at
    column 1 of the next line. *)
Theorem Next_newline (t : Tokenizer) (rest : bytes) :
  remaining t = newline :: rest ->
  getNewline t
  = Ok (Some {| Type_ := TypeNewline; Value := [];
                Pos := NewPosition (line t) (column t) |},
        advanced 1 (set_column 0 (set_line (int_add (line t) 1) t))) /\
  Next t
  = Ok ({| Type_ := TypeNewline; Value := [];
           Pos := NewPosition (line t) (column t) |},
        {| column := 1; line := int_add (line t) 1; text := text t;
           remaining := rest |}) /\
  (int_min <= line t < int_max -> int_add (line t) 1 = line t + 1) /\
  exists tok t',
    Next {| column := 1; line := int_add (line t) 1; text := text t;
            remaining := rest |} = Ok (tok, t') /\
    Pos tok = NewPosition (int_add (line t) 1) 1.
Proof.
  intros E. split; [|split; [|split]].
  - rewrite getNewline_eq, E. change (Byte.eqb newline newline) with true.
    unfold next_line, advanced, set_column, set_line, token_at.
    cbn [remaining column line text]. now rewrite E.
  - rewrite Next_eq. unfold Next_result. rewrite E, recognize_newline.
    unfold next_line, token_at. now rewrite E.
  - intros H. unfold int_add. apply wrap_small.
    unfold int_min, int_max in *. lia.
  - eexists _, _. rewrite Next_eq. split.
    + apply f_equal, surjective_pairing.
    + apply Next_result_Pos.
Qed.

(** C9.  Through the tokens returned after one [Load], the position of a
    token is never before that of the token returned before it; the line
    only changes after a Newline token, by one, and the token that follows
    is at column 1; after any other token the line is the same and the column
    is no less.  (The counters are machine integers: the lowercased input is
    shorter than the largest [int].) *)
Theorem positions_never_decrease (input : bytes) (n : nat) :
  len (ToLower unicode_ToLower input) < int_max ->
  exists toks t',
    (Load input ;; Next_n n) NewTokenizer = Ok (toks, t') /\
    length toks = n /\
    forall i a b,
      nth_error toks i = Some a -> nth_error toks (S i) = Some b ->
      pos_le (Pos a) (Pos b) /\ follows a b.
Proof.
  intros Hlen.
  set (t0 := {| column := 1; line := 1; text := input;
                remaining := ToLower unicode_ToLower input |}).
  exists (fst (Next_n_result n t0)), (snd (Next_n_result n t0)).
  unfold bind. rewrite Load_eq. fold t0. rewrite Next_n_eq.
  split; [now destruct (Next_n_result n t0)|].
  split; [apply Next_n_result_length|].
  intros i a b Ha Hb.
  assert (Hf : follows a b).
  { apply (Next_n_result_follows (1 + len (ToLower unicode_ToLower input)) n)
      with (t := t0) (i := i); [lia| |assumption..].
    unfold counters_within, t0, len. cbn [column line remaining]. lia. }
  split; [now apply follows_pos_le|assumption].
Qed.

(** C10.  When the unconsumed text is a colon immediately followed by one of
    the keyword words, [getKeyword] finds nothing and [Next] returns one
    identifier token: its value is the colon, the word, and the word bytes
    that follow it, if any.  So the input of a colon and a keyword is one
    identifier, colon included, then end of input. *)
Theorem colon_keyword_is_identifier (kw : bytes) :
  In kw keywords ->
  (forall t rest,
     remaining t = lit ":" ++ kw ++ rest ->
     getKeyword t = Ok (None, t) /\
     Next t
     = Ok (token_at t TypeID (lit ":" ++ kw ++ run_of is_word rest),
           advanced (length (lit ":" ++ kw ++ run_of is_word rest)) t)) /\
  tokenize (lit ":" ++ kw) 2
  = Ok [ {| Type_ := TypeID; Value := lit ":" ++ kw; Pos := NewPosition 1 1 |};
         {| Type_ := TypeEOF; Value := [];
            Pos := NewPosition 1 (2 + len kw) |} ].
Proof.
  intros Hin. split.
  - intros t rest E. split.
    + now rewrite getKeyword_eq, E, find_keywordRegex_colon.
    + destruct (keyword_letters kw Hin) as (l & kw' & -> & Hl & Hw).
      rewrite Next_eq. unfold Next_result.
      change ((l :: kw') ++ rest) with (l :: kw' ++ rest) in E.
      rewrite E, recognize_colon_letter by assumption.
      now rewrite run_of_app by assumption.
  - simpl in Hin.
    repeat (destruct Hin as [<-|Hin]; [vm_compute; reflexivity|]).
    destruct Hin.
Qed.

End Tokenizer.

(* ===================================================================== *)
(** ** The Unicode path of [strings.ToLower] *)
(* ===================================================================== *)

Lemma to_N_byte_of_N (n : N) : (n < 256)%N -> Byte.to_N (byte_of_N n) = n.
Proof.
  intros H. unfold byte_of_N. destruct (Byte.of_N n) as [b|] eqn:E.
  - now apply Byte.to_of_N.
  - apply Byte.of_N_None_iff in E. lia.
Qed.

Lemma byte_of_N_to_N (b : byte) : byte_of_N (Byte.to_N b) = b.
Proof. unfold byte_of_N. now rewrite Byte.of_to_N. Qed.

Lemma is_upper_byte_of_N (n : N) :
  (n < 65 \/ 90 < n)%N -> is_upper (byte_of_N n) = false.
Proof.
  intros H. destruct (N.lt_ge_cases n 256) as [Hn|Hn].
  - unfold is_upper. rewrite to_N_byte_of_N by assumption.
    apply andb_false_iff. rewrite N.leb_gt, N.leb_gt. lia.
  - unfold byte_of_N. destruct (Byte.of_N n) as [b|] eqn:E; [|reflexivity].
    apply Byte.to_of_N in E. pose proof (Byte.to_N_bounded b). lia.
Qed.

(** No byte of the encoding of a rune is a capital letter, unless the rune
    is one. *)
Lemma is_upper_byte_of_N_high (k n : N) :
  (91 <= k)%N -> is_upper (byte_of_N (k + n)) = false.
Proof.
  intros H. apply is_upper_byte_of_N. right.
  pose proof (N.le_0_l n). lia.
Qed.

Lemma EncodeRune_no_capital (r : N) :
  (r < 65 \/ 90 < r)%N -> no_capital (EncodeRune r).
Proof.
  intros H. unfold EncodeRune, no_capital.
  destruct (r <=? 127)%N eqn:E1.
  - repeat constructor. now apply is_upper_byte_of_N.
  - destruct (r <=? 2047)%N; [|destruct (_ <=? 65535)%N];
      repeat (constructor; [now apply is_upper_byte_of_N_high|]);
      constructor.
Qed.

Lemma unicode_ToLower_rune_no_capital (lower_case : N -> N) (r : N) :
  (forall c, (128 <= c)%N -> (lower_case c < 65 \/ 90 < lower_case c)%N) ->
  (unicode_ToLower_rune lower_case r < 65 \/
   90 < unicode_ToLower_rune lower_case r)%N.
Proof.
  intros H. unfold unicode_ToLower_rune.
  destruct (r <=? 127)%N eqn:E1.
  - destruct ((65 <=? r) && (r <=? 90))%N eqn:E2.
    + apply andb_true_iff in E2. rewrite !N.leb_le in E2. lia.
    + apply andb_false_iff in E2. rewrite !N.leb_gt in E2. lia.
  - apply H. apply N.leb_gt in E1. lia.
Qed.

Lemma Map_ToLower_no_capital (lower_case : N -> N) (s : bytes) :
  (forall c, (128 <= c)%N -> (lower_case c < 65 \/ 90 < lower_case c)%N) ->
  no_capital (Map (unicode_ToLower_rune lower_case) s).
Proof.
  intros H. unfold Map, no_capital.
  induction (runes s) as [|r rs IH]; cbn [flat_map]; [constructor|].
  apply Forall_app. split; [|exact IH].
  now apply EncodeRune_no_capital, unicode_ToLower_rune_no_capital.
Qed.

(** On a byte below 0x80 the two paths of [strings.ToLower] agree. *)
Lemma EncodeRune_ToLower_ascii (lower_case : N -> N) (b : byte) :
  is_ascii b = true ->
  EncodeRune (unicode_ToLower_rune lower_case (Byte.to_N b))
  = [lower_byte b].
Proof. destruct b; intros H; try discriminate H; reflexivity. Qed.

(** On a text that is not empty [DecodeRune] takes at least one byte, and
    no more than there are. *)
Lemma DecodeRune_width (b : byte) (s : bytes) :
  (1 <= snd (DecodeRune (b :: s)) <= length (b :: s))%nat.
Proof.
  unfold DecodeRune.
  repeat match goal with
         | |- context [if ?c then _ else _] => destruct c
         | |- context [match ?l with [] => _ | _ :: _ => _ end] =>
             destruct l
         end; cbn [snd length]; lia.
Qed.

Lemma runes_from_enough (n : nat) (s : bytes) :
  (length s <= n)%nat -> runes_from n s = runes s.
Proof.
  unfold runes. remember (length s) as m eqn:Hm.
  revert n s Hm. induction m as [m IH] using lt_wf_ind.
  intros n s Hm Hn. destruct s as [|b s].
  - cbn [length] in Hm. subst m. now destruct n.
  - cbn [length] in Hm. destruct n as [|n]; [lia|]. subst m.
    cbn [runes_from]. f_equal.
    pose proof (DecodeRune_width b s) as Hw.
    set (rest := skipn (snd (DecodeRune (b :: s))) (b :: s)).
    assert (Hr : (length rest <= length s)%nat).
    { unfold rest. rewrite length_skipn. cbn [length]. lia. }
    rewrite (IH (length rest) ltac:(lia) n rest eq_refl ltac:(lia)).
    now rewrite (IH (length rest) ltac:(lia) (length s) rest eq_refl Hr).
Qed.

Lemma runes_nil : runes [] = [].
Proof. reflexivity. Qed.

Lemma runes_cons (b : byte) (s : bytes) :
  runes (b :: s)
  = fst (DecodeRune (b :: s))
      :: runes (skipn (snd (DecodeRune (b :: s))) (b :: s)).
Proof.
  unfold runes at 1. cbn [length runes_from]. f_equal.
  apply runes_from_enough. pose proof (DecodeRune_width b s).
  rewrite length_skipn. cbn [length]. lia.
Qed.

Lemma runes_ascii_cons (b : byte) (s : bytes) :
  is_ascii b = true -> runes (b :: s) = Byte.to_N b :: runes s.
Proof.
  intros H. rewrite runes_cons. unfold DecodeRune.
  unfold is_ascii in H. now rewrite H.
Qed.

Lemma Map_ToLower_ascii (lower_case : N -> N) (s : bytes) :
  forallb is_ascii s = true ->
  Map (unicode_ToLower_rune lower_case) s = map lower_byte s.
Proof.
  unfold Map. induction s as [|b s IH]; [reflexivity|].
  cbn [forallb map]. intros H. apply andb_true_iff in H as [Hb Hs].
  rewrite runes_ascii_cons by assumption. cbn [flat_map].
  now rewrite EncodeRune_ToLower_ascii, IH.
Qed.

(** [strings.ToLower] maps the runes of every text, whichever path it
    takes. *)
Lemma ToLower_runes (lower_case : N -> N) (s : bytes) :
  ToLower (unicode_path lower_case) s
  = Map (unicode_ToLower_rune lower_case) s.
Proof.
  unfold ToLower, unicode_path.
  destruct (forallb is_ascii s) eqn:E; [|reflexivity].
  symmetry. now apply Map_ToLower_ascii.
Qed.

Lemma ToLower_no_capital (lower_case : N -> N) (s : bytes) :
  (forall c, (128 <= c)%N -> (lower_case c < 65 \/ 90 < lower_case c)%N) ->
  no_capital (ToLower (unicode_path lower_case) s).
Proof. intros H. rewrite ToLower_runes. now apply Map_ToLower_no_capital. Qed.

(** A byte below 0x80 is no continuation byte: the rune before it is the
    same whatever follows. *)
Lemma DecodeRune_before_ascii (a0 : byte) (a : bytes) (b : byte) (c : bytes) :
  is_ascii b = true ->
  DecodeRune ((a0 :: a) ++ b :: c) = DecodeRune (a0 :: a).
Proof.
  intros Hb.
  assert (H : forall lo hi, (128 <= lo)%N -> in_range lo hi b = false).
  { intros lo hi Hlo. unfold in_range. unfold is_ascii in Hb.
    apply N.ltb_lt in Hb. apply andb_false_iff. left. apply N.leb_gt. lia. }
  unfold DecodeRune. cbn [app].
  destruct (Byte.to_N a0 <? 128)%N; [reflexivity|].
  destruct (in_range 194 223 a0).
  { destruct a as [|a1 a]; cbn [app]; [now rewrite H by lia|reflexivity]. }
  destruct (in_range 224 239 a0).
  { destruct (Byte.to_N a0 =? 224)%N, (Byte.to_N a0 =? 237)%N;
      destruct a as [|a1 [|a2 a]]; cbn [app]; try reflexivity;
      try (destruct c as [|c0 c]; [reflexivity|]);
      rewrite ?H by lia; rewrite ?andb_false_r; reflexivity. }
  destruct (in_range 240 244 a0); [|reflexivity].
  destruct (Byte.to_N a0 =? 240)%N, (Byte.to_N a0 =? 244)%N;
    destruct a as [|a1 [|a2 [|a3 a]]]; cbn [app]; try reflexivity;
    destruct c as [|c0 [|c1 c]]; try reflexivity;
    rewrite ?H by lia; rewrite ?andb_false_r; reflexivity.
Qed.

(** The runes of a text split at every byte below 0x80. *)
Lemma runes_app_ascii (a : bytes) (b : byte) (c : bytes) :
  is_ascii b = true ->
  runes (a ++ b :: c) = runes a ++ Byte.to_N b :: runes c.
Proof.
  intros Hb. remember (length a) as m eqn:Hm.
  revert a Hm. induction m as [m IH] using lt_wf_ind. intros a Hm.
  destruct a as [|a0 a].
  - now apply runes_ascii_cons.
  - change ((a0 :: a) ++ b :: c) with (a0 :: (a ++ b :: c)).
    rewrite !runes_cons.
    change (a0 :: (a ++ b :: c)) with ((a0 :: a) ++ b :: c).
    rewrite DecodeRune_before_ascii by assumption.
    pose proof (DecodeRune_width a0 a) as Hw.
    rewrite skipn_app.
    replace (snd (DecodeRune (a0 :: a)) - length (a0 :: a))%nat with 0%nat
      by lia.
    cbn [skipn app]. f_equal.
    apply (IH (length (skipn (snd (DecodeRune (a0 :: a))) (a0 :: a))));
      [|reflexivity].
    rewrite length_skipn. subst m. cbn [length] in *. lia.
Qed.

Lemma Map_app_ascii (mapping : N -> N) (a : bytes) (b : byte) (c : bytes) :
  is_ascii b = true ->
  Map mapping (a ++ b :: c)
  = Map mapping a ++ EncodeRune (mapping (Byte.to_N b)) ++ Map mapping c.
Proof.
  intros Hb. unfold Map. rewrite runes_app_ascii by assumption.
  now rewrite flat_map_app.
Qed.

(** Lowering keeps the quotes where they are: the text between two quotes
    is lowered on its own. *)
Lemma Map_ToLower_quoted (lower_case : N -> N) (body rest : bytes) :
  Map (unicode_ToLower_rune lower_case) (quote :: body ++ quote :: rest)
  = quote :: Map (unicode_ToLower_rune lower_case) body
      ++ quote :: Map (unicode_ToLower_rune lower_case) rest.
Proof.
  change (quote :: body ++ quote :: rest)
    with ([] ++ quote :: (body ++ quote :: rest)).
  rewrite Map_app_ascii by reflexivity.
  rewrite Map_app_ascii by reflexivity. reflexivity.
Qed.

Lemma firstn_app_exact (a b : bytes) : firstn (length a) (a ++ b) = a.
Proof. induction a as [|x a IH]; [reflexivity|]. cbn. now rewrite IH. Qed.

(** C7.  [Load] puts the lowercased input in the buffer the tokens are cut
    from.  The input IF gives the Keyword token if.  For every input the
    buffer holds the runes of the input mapped through [unicode.ToLower]
    and encoded again, whichever path [strings.ToLower] takes, so a capital
    letter from A to Z becomes its small letter also next to runes from
    0x80 on.  The value of the String token of a literal is the lowered
    text between its quotes: for every text, and byte by byte when the text
    has no byte from 0x80 on.  No token of any kind, wherever it stands in
    the input, has one of the letters A to Z in its value, the lower-case
    table yielding none.  The runes from 0x80 on are lowered as the table
    says: with its Latin-1 rows the capital E with acute accent becomes the
    small one. *)
Theorem Load_lowercases_the_buffer (lower_case : N -> N) :
  tokenize (unicode_path lower_case) (lit "IF") 2
  = Ok [ {| Type_ := TypeKeyword; Value := lit "if"; Pos := NewPosition 1 1 |};
         {| Type_ := TypeEOF; Value := []; Pos := NewPosition 1 3 |} ] /\
  (forall input t,
     Load (unicode_path lower_case) input t
     = Ok (tt, {| column := 1; line := 1; text := input;
                  remaining :=
                    Map (unicode_ToLower_rune lower_case) input |})) /\
  (forall body rest,
     first_unescaped_quote
       (Map (unicode_ToLower_rune lower_case) body
          ++ quote :: Map (unicode_ToLower_rune lower_case) rest)
       (length (Map (unicode_ToLower_rune lower_case) body)) ->
     exists t',
       (Load (unicode_path lower_case) (quote :: body ++ quote :: rest) ;;
        Next) NewTokenizer
       = Ok ({| Type_ := TypeString;
                Value := Map (unicode_ToLower_rune lower_case) body;
                Pos := NewPosition 1 1 |}, t') /\
       remaining t' = Map (unicode_ToLower_rune lower_case) rest) /\
  (forall s k,
     forallb is_ascii s = true ->
     first_unescaped_quote s k ->
     exists t',
       (Load (unicode_path lower_case) (quote :: s) ;; Next) NewTokenizer
       = Ok ({| Type_ := TypeString; Value := map lower_byte (firstn k s);
                Pos := NewPosition 1 1 |}, t') /\
       remaining t' = map lower_byte (skipn (S k) s) /\
       no_capital (map lower_byte (firstn k s))) /\
  ((forall c, (128 <= c)%N -> (lower_case c < 65 \/ 90 < lower_case c)%N) ->
   forall input n,
     exists toks t',
       (Load (unicode_path lower_case) input ;; Next_n n) NewTokenizer
       = Ok (toks, t') /\
       length toks = n /\
       Forall (fun tok => no_capital (Value tok)) toks) /\
  tokenize (unicode_path lower_case) capital_literal 2
  = Ok [ {| Type_ := TypeString; Value := lit "say hello";
            Pos := NewPosition 1 1 |};
         {| Type_ := TypeEOF; Value := []; Pos := NewPosition 1 12 |} ] /\
  tokenize (unicode_path latin1_lower_case) accented_literal 2
  = Ok [ {| Type_ := TypeString; Value := lit "say h" ++ [xc3; xa9];
            Pos := NewPosition 1 1 |};
         {| Type_ := TypeEOF; Value := []; Pos := NewPosition 1 10 |} ].
Proof.
  split; [vm_compute; reflexivity|].
  split; [|split; [|split; [|split; [|split; vm_compute; reflexivity]]]].
  - intros input t. now rewrite Load_eq, ToLower_runes.
  - intros body rest Hk. unfold bind at 1.
    rewrite Load_eq, ToLower_runes, Map_ToLower_quoted.
    set (lower := Map (unicode_ToLower_rune lower_case)) in *.
    set (t0 := {| column := 1; line := 1;
                  text := quote :: body ++ quote :: rest;
                  remaining := quote :: lower body ++ quote :: lower rest |}).
    destruct (Next_result_string_literal
                t0 (lower body ++ quote :: lower rest) (length (lower body)))
      as [HN Hrem]; [reflexivity|assumption|].
    exists (advanced (length (lower body) + 2) t0). rewrite Next_eq, HN.
    rewrite firstn_app_exact. split; [reflexivity|].
    rewrite Hrem.
    change (S (length (lower body))) with (1 + length (lower body))%nat.
    rewrite <- skipn_skipn, skipn_app_exact. reflexivity.
  - intros s k Hascii Hk. unfold bind at 1. rewrite Load_eq.
    rewrite ToLower_ascii by (cbn [forallb]; now rewrite Hascii).
    cbn [map]. change (lower_byte quote) with quote.
    set (t0 := {| column := 1; line := 1; text := quote :: s;
                  remaining := quote :: map lower_byte s |}).
    destruct (Next_result_string_literal t0 (map lower_byte s) k)
      as [HN Hrem]; [reflexivity|now apply first_unescaped_quote_lower|].
    exists (advanced (k + 2) t0). rewrite Next_eq, HN.
    rewrite firstn_map. split; [reflexivity|].
    rewrite Hrem, skipn_map. split; [reflexivity|].
    rewrite <- firstn_map. apply no_capital_firstn_skipn, no_capital_lower.
  - intros Htable input n. unfold bind at 1. rewrite Load_eq.
    set (t0 := {| column := 1; line := 1; text := input;
                  remaining := ToLower (unicode_path lower_case) input |}).
    exists (fst (Next_n_result n t0)), (snd (Next_n_result n t0)).
    rewrite Next_n_eq. split; [now destruct (Next_n_result n t0)|].
    split; [apply Next_n_result_length|].
    apply Next_n_result_no_capital. now apply ToLower_no_capital.
Qed.

(* ===================================================================== *)
(** ** The properties at the inputs of the examples *)
(* ===================================================================== *)

(** The claim as first stated does not hold: the value of the Comment token
    begins with the two slashes. *)
Lemma comment_value_is_not_stripped :
  exists c rest,
    tokenize no_unicode hello_line 2 = Ok (c :: rest) /\
    Type_ c = TypeComment /\
    Value c = lit "// hello" /\
    Value c <> lit " hello".
Proof.
  eexists _, _. split; [vm_compute; reflexivity|].
  cbn [Type_ Value]. repeat split. discriminate.
Qed.

Lemma Next_string_literal_witness :
  exists k,
    first_unescaped_quote (tl escaped_quote_literal) k /\
    Next {| column := 1; line := 1; text := escaped_quote_literal;
            remaining := escaped_quote_literal |}
    = Ok (token_at {| column := 1; line := 1; text := escaped_quote_literal;
                      remaining := escaped_quote_literal |}
                   TypeString (firstn k (tl escaped_quote_literal)),
          advanced (k + 2)
                   {| column := 1; line := 1; text := escaped_quote_literal;
                      remaining := escaped_quote_literal |}) /\
    remaining (advanced (k + 2)
                 {| column := 1; line := 1; text := escaped_quote_literal;
                    remaining := escaped_quote_literal |})
    = skipn (S k) (tl escaped_quote_literal) /\
    (2 <= length escaped_quote_literal)%nat.
Proof.
  apply (Next_string_literal
           {| column := 1; line := 1; text := escaped_quote_literal;
              remaining := escaped_quote_literal |}
           (tl escaped_quote_literal)).
  - reflexivity.
  - exists 4%nat. split; reflexivity.
Defined.

Lemma Next_unterminated_string_witness :
  Next {| column := 1; line := 1; text := unterminated_abc;
          remaining := unterminated_abc |}
  = Ok (token_at {| column := 1; line := 1; text := unterminated_abc;
                    remaining := unterminated_abc |} TypeUnknown [quote],
        advanced 1 {| column := 1; line := 1; text := unterminated_abc;
                      remaining := unterminated_abc |}) /\
  (forall n, exists toks t',
     Next_n n {| column := 1; line := 1; text := unterminated_abc;
                 remaining := unterminated_abc |} = Ok (toks, t') /\
     length toks = n /\
     Forall (fun tok => Type_ tok <> TypeString) toks) /\
  tokenize no_unicode unterminated_abc 3
  = Ok [ {| Type_ := TypeUnknown; Value := [quote]; Pos := NewPosition 1 1 |};
         {| Type_ := TypeID; Value := lit "abc"; Pos := NewPosition 1 2 |};
         {| Type_ := TypeEOF; Value := []; Pos := NewPosition 1 5 |} ].
Proof.
  apply (Next_unterminated_string no_unicode
           {| column := 1; line := 1; text := unterminated_abc;
              remaining := unterminated_abc |} (lit "abc")).
  - reflexivity.
  - apply no_unescaped_quote_without_quote. reflexivity.
Defined.

(** The claim as first stated does not hold: after the quote the text a,
    space, b yields a Whitespace token, which is neither Unknown nor an
    identifier nor a number. *)
Lemma unterminated_string_other_tokens :
  (forall k, ~ unescaped_quote (lit "a b") k) /\
  tokenize no_unicode unterminated_a_b 5
  = Ok [ {| Type_ := TypeUnknown; Value := [quote]; Pos := NewPosition 1 1 |};
         {| Type_ := TypeID; Value := lit "a"; Pos := NewPosition 1 2 |};
         {| Type_ := TypeWhitespace; Value := lit " ";
            Pos := NewPosition 1 3 |};
         {| Type_ := TypeID; Value := lit "b"; Pos := NewPosition 1 4 |};
         {| Type_ := TypeEOF; Value := []; Pos := NewPosition 1 5 |} ] /\
  ~ In TypeWhitespace [TypeUnknown; TypeID; TypeNumber].
Proof.
  split; [|split].
  - apply no_unescaped_quote_without_quote. reflexivity.
  - vm_compute. reflexivity.
  - intros H. simpl in H.
    repeat (destruct H as [H|H]; [vm_compute in H; discriminate|]).
    destruct H.
Qed.

(** The claim as first stated does not hold: in the text 1if the word if
    stands right after the word byte 1, with no word boundary between them,
    and it is returned as a Keyword token. *)
Lemma keyword_without_boundary_before :
  exists pre kw toks,
    lit "1if" = pre ++ kw /\
    In kw keywords /\
    word_boundary (last (map Some pre) None) (hd_error kw) = false /\
    tokenize no_unicode (lit "1if") 3 = Ok toks /\
    nth_error toks 1
    = Some {| Type_ := TypeKeyword; Value := kw; Pos := NewPosition 1 2 |}.
Proof.
  exists (lit "1"), (lit "if"). eexists.
  split; [reflexivity|]. split; [left; reflexivity|].
  split; [reflexivity|]. split; [vm_compute; reflexivity|reflexivity].
Qed.

Lemma Next_newline_witness :
  getNewline {| column := 7; line := 3; text := []; remaining := [newline; x61] |}
  = Ok (Some {| Type_ := TypeNewline; Value := []; Pos := NewPosition 3 7 |},
        advanced 1 (set_column 0 (set_line (int_add 3 1)
          {| column := 7; line := 3; text := [];
             remaining := [newline; x61] |}))) /\
  Next {| column := 7; line := 3; text := []; remaining := [newline; x61] |}
  = Ok ({| Type_ := TypeNewline; Value := []; Pos := NewPosition 3 7 |},
        {| column := 1; line := int_add 3 1; text := [];
           remaining := [x61] |}) /\
  (int_min <= 3 < int_max -> int_add 3 1 = 3 + 1) /\
  exists tok t',
    Next {| column := 1; line := int_add 3 1; text := []; remaining := [x61] |}
    = Ok (tok, t') /\
    Pos tok = NewPosition (int_add 3 1) 1.
Proof.
  apply (Next_newline
           {| column := 7; line := 3; text := []; remaining := [newline; x61] |}
           [x61]).
  reflexivity.
Defined.

Lemma positions_never_decrease_witness :
  exists toks t',
    (Load no_unicode two_lines ;; Next_n 8) NewTokenizer = Ok (toks, t') /\
    length toks = 8%nat /\
    forall i a b,
      nth_error toks i = Some a -> nth_error toks (S i) = Some b ->
      pos_le (Pos a) (Pos b) /\ follows a b.
Proof.
  apply (positions_never_decrease no_unicode two_lines 8).
  vm_compute. reflexivity.
Defined.

Lemma colon_keyword_is_identifier_witness :
  (forall t rest,
     remaining t = lit ":" ++ lit "if" ++ rest ->
     getKeyword t = Ok (None, t) /\
     Next t
     = Ok (token_at t TypeID (lit ":" ++ lit "if" ++ run_of is_word rest),
           advanced (length (lit ":" ++ lit "if" ++ run_of is_word rest)) t)) /\
  tokenize no_unicode (lit ":" ++ lit "if") 2
  = Ok [ {| Type_ := TypeID; Value := lit ":" ++ lit "if";
            Pos := NewPosition 1 1 |};
         {| Type_ := TypeEOF; Value := [];
            Pos := NewPosition 1 (2 + len (lit "if")) |} ].
Proof.
  apply (colon_keyword_is_identifier no_unicode (lit "if")).
  left. reflexivity.
Defined.
(* ===================================================================== *)
(** ** The patterns as scanners *)
(* ===================================================================== *)

Lemma flat_map_nil (A B : Type) (f : A -> list B) (l : list A) :
  (forall x, In x l -> f x = []) -> flat_map f l = [].
Proof.
  induction l as [|a l IH]; intros H; simpl; [reflexivity|].
  rewrite (H a) by now left. apply IH. intros x Hx. apply H. now right.
Qed.

Lemma Find_anchored_none (r : regexp) (s : bytes) :
  run r None s = [] -> Find (Concat BeginText r) s = None.
Proof.
  intros H. rewrite Find_anchored. cbn [run flat_map fst length skipn map last].
  now rewrite H.
Qed.

(** After the longest run of a class the text stops being in the class. *)
Lemma stops_after_run_of (c : byte -> bool) (s : bytes) :
  stops c (skipn (length (run_of c s)) s) = true.
Proof.
  induction s as [|b s IH]; [reflexivity|].
  cbn [run_of]. destruct (c b) eqn:E; cbn [length skipn stops]; [exact IH|].
  now rewrite E.
Qed.

Lemma run_of_prefix (c : byte -> bool) (s : bytes) :
  s = run_of c s ++ skipn (length (run_of c s)) s.
Proof.
  induction s as [|b s IH]; [reflexivity|].
  cbn [run_of]. destruct (c b); cbn [length skipn app]; [|reflexivity].
  now rewrite <- IH.
Qed.

Lemma run_of_all (c : byte -> bool) (s : bytes) :
  forallb c (run_of c s) = true.
Proof.
  induction s as [|b s IH]; [reflexivity|].
  cbn [run_of]. destruct (c b) eqn:E; [|reflexivity].
  cbn [forallb]. now rewrite E, IH.
Qed.

(** An alternative of a repetition is the longest run, or stops before a
    byte of the class. *)
Lemma star_alternatives (c : byte -> bool) (s p : bytes) :
  In p (star c s) ->
  p = run_of c s \/
  exists b r, skipn (length p) s = b :: r /\ c b = true.
Proof.
  revert p. induction s as [|b s IH]; intros p H; cbn [star run_of] in *.
  - destruct H as [<-|[]]. now left.
  - destruct (c b) eqn:E.
    + apply in_app_iff in H as [H|[<-|[]]].
      * apply in_map_iff in H as (p' & <- & H).
        destruct (IH _ H) as [->|(b' & r & H1 & H2)]; [now left|].
        right. now exists b', r.
      * right. now exists b, s.
    + destruct H as [<-|[]]. now left.
Qed.

(** [getWhitespace]'s pattern is the scanner of blank runs. *)
Lemma Find_Plus (c : byte -> bool) (s : bytes) :
  Find (Concat BeginText (Plus c)) s
  = match run_of c s with
    | [] => None
    | found => Some found
    end.
Proof.
  destruct s as [|b s].
  - now apply Find_anchored_none.
  - cbn [run_of]. destruct (c b) eqn:E.
    + apply (Find_anchored_first _ _ (b :: run_of c s, [])).
      cbn [run]. apply hd_error_map with (f := fun m => (m, [])).
      now apply hd_error_plus.
    + apply Find_anchored_none. cbn [run]. unfold plus. now rewrite E.
Qed.

Lemma Find_whitespaceRegex (s : bytes) :
  Find whitespaceRegex s = scan_whitespace s.
Proof. exact (Find_Plus is_space s). Qed.

(** The optional fraction of the number pattern. *)
Lemma hd_error_fraction (prev : option byte) (s : bytes) :
  exists groups,
    hd_error (run (Quest (Capture (Concat (Literal (lit ".")) (Plus is_digit))))
                  prev s)
    = Some (scan_fraction s, groups).
Proof.
  destruct s as [|b s]; [exists []; reflexivity|].
  change (lit ".") with [dot].
  cbn [scan_fraction run HasPrefix].
  destruct (Byte.eqb b dot) eqn:E; [|exists []; reflexivity].
  apply byte_dec_bl in E. subst b.
  cbn [andb flat_map fst snd length skipn map last app].
  destruct s as [|d s]; [exists []; reflexivity|].
  cbn [run_of]. unfold plus.
  destruct (is_digit d) eqn:Ed; [|exists []; reflexivity].
  pose proof (hd_error_star is_digit s) as H.
  destruct (star is_digit s) as [|x xs] eqn:Es; [discriminate|].
  injection H as ->. eexists. reflexivity.
Qed.

(** [getNumberConstant]'s pattern is the scanner of numbers. *)
Lemma Find_numberRegex (s : bytes) : Find numberRegex s = scan_number s.
Proof.
  change numberRegex with
    (Concat BeginText
       (Concat (Plus is_digit)
          (Quest (Capture (Concat (Literal (lit ".")) (Plus is_digit)))))).
  unfold scan_number. destruct s as [|b s].
  - now apply Find_anchored_none.
  - cbn [run_of]. destruct (is_digit b) eqn:E.
    + destruct (hd_error_fraction
                  (last (map Some (b :: run_of is_digit s)) None)
                  (skipn (length (b :: run_of is_digit s)) (b :: s)))
        as [groups H].
      apply (Find_anchored_first _ _
               ((b :: run_of is_digit s)
                  ++ scan_fraction
                       (skipn (length (b :: run_of is_digit s)) (b :: s)),
                [] ++ groups)).
      apply (hd_error_run_Concat _ _ _ _ (b :: run_of is_digit s, [])
               (scan_fraction
                  (skipn (length (b :: run_of is_digit s)) (b :: s)), groups)).
      * cbn [run]. apply hd_error_map with (f := fun m => (m, [])).
        now apply hd_error_plus.
      * exact H.
    + apply Find_anchored_none. cbn [run]. unfold plus. now rewrite E.
Qed.

Lemma is_letter_not_colon (b : byte) :
  is_letter b = true -> Byte.eqb b colon = false.
Proof. destruct b; intros H; try reflexivity; discriminate H. Qed.

Lemma is_blank_not_slash (b : byte) :
  is_blank b = true -> Byte.eqb b slash = false.
Proof. destruct b; intros H; try reflexivity; discriminate H. Qed.

(** [getIdentifier]'s pattern is the scanner of identifiers. *)
Lemma Find_identifierRegex (s : bytes) :
  Find identifierRegex s = scan_identifier s.
Proof.
  destruct s as [|b s]; [reflexivity|]. cbn [scan_identifier].
  destruct (is_letter b) eqn:E.
  - pose proof (is_letter_not_colon b E) as Hc.
    change identifierRegex with
      (Concat BeginText
         (Concat (Quest (Literal (lit ":")))
            (Concat (Plus is_letter) (Star is_word)))).
    rewrite <- run_of_letter_word.
    apply (Find_anchored_first _ _
             ([] ++ (b :: run_of is_letter s)
                ++ run_of is_word (skipn (length (run_of is_letter s)) s), [])).
    apply (hd_error_run_Concat _ _ _ _ ([], [])
             ((b :: run_of is_letter s)
                ++ run_of is_word (skipn (length (run_of is_letter s)) s), [])).
    + change (lit ":") with [colon]. cbn [run HasPrefix]. now rewrite Hc.
    + cbn [fst length skipn map last].
      apply (hd_error_run_Concat _ _ _ _ (b :: run_of is_letter s, [])
               (run_of is_word (skipn (length (run_of is_letter s)) s), [])).
      * cbn [run]. apply hd_error_map with (f := fun m => (m, [])).
        now apply hd_error_plus.
      * cbn [fst run length skipn].
        apply hd_error_map with (f := fun m => (m, [])), hd_error_star.
  - destruct (Byte.eqb b colon) eqn:Ec.
    + apply byte_dec_bl in Ec. subst b. destruct s as [|l s]; [reflexivity|].
      destruct (is_letter l) eqn:El.
      * exact (Find_identifierRegex_colon l s El).
      * etransitivity; [apply Find_anchored|].
        change (lit ":") with [colon].
        cbn [run Seq HasPrefix flat_map map app fst snd length skipn last].
        change (Byte.eqb colon colon) with true.
        cbn [andb app flat_map map fst snd length skipn last].
        unfold plus. rewrite El. reflexivity.
    + etransitivity; [apply Find_anchored|].
      change (lit ":") with [colon].
      cbn [run Seq HasPrefix flat_map map app fst snd length skipn last].
      rewrite Ec.
      cbn [andb app flat_map map fst snd length skipn last].
      unfold plus. rewrite E. reflexivity.
Qed.

(** [getComment]'s pattern is the scanner of comments. *)
Lemma Find_commentRegex (s : bytes) : Find commentRegex s = scan_comment s.
Proof.
  unfold scan_comment.
  destruct (HasPrefix (skipn (length (run_of is_blank s)) s) [slash; slash])
    eqn:E.
  - apply HasPrefix_inv in E as [r2 E]. cbn [app] in E. rewrite E.
    cbn [skipn].
    pose proof (run_of_prefix is_blank s) as Hs. rewrite E in Hs.
    pose proof (run_of_prefix not_newline r2) as Hr.
    rewrite Hs at 1. rewrite Hr at 1.
    apply (Find_commentRegex_line (run_of is_blank s)
             (run_of not_newline r2)
             (skipn (length (run_of not_newline r2)) r2)).
    + apply run_of_all.
    + apply run_of_all.
    + apply stops_after_run_of.
  - change commentRegex with
      (Concat BeginText
         (Concat (Star is_blank)
            (Concat (Literal (lit "//")) (Capture (Star not_newline))))).
    apply Find_anchored_none. cbn [run]. apply flat_map_nil.
    intros m Hm. apply in_map_iff in Hm as (p & <- & Hp). cbn [fst].
    assert (Hno : HasPrefix (skipn (length p) s) [slash; slash] = false).
    { apply star_alternatives in Hp as [->|(b & r & -> & Hb)]; [exact E|].
      cbn [HasPrefix]. now rewrite (is_blank_not_slash b Hb). }
    change (lit "//") with [slash; slash]. now rewrite Hno.
Qed.

(* ===================================================================== *)
(** ** The recognizers as scanners *)
(* ===================================================================== *)

Lemma scan_comment_stops (s found : bytes) :
  scan_comment s = Some found ->
  stops not_newline (skipn (length found) s) = true.
Proof.
  unfold scan_comment.
  pose proof (run_of_prefix is_blank s) as Hs.
  remember (run_of is_blank s) as blanks eqn:Hb. clear Hb.
  destruct (HasPrefix (skipn (length blanks) s) [slash; slash])
    eqn:E; [|discriminate].
  intros [= <-]. apply HasPrefix_inv in E as [r2 E]. cbn [app] in E.
  rewrite E in Hs |- *. cbn [skipn]. rewrite Hs.
  replace (blanks ++ slash :: slash :: r2)
    with ((blanks ++ [slash; slash]) ++ r2) by now rewrite <- app_assoc.
  replace (blanks ++ slash :: slash :: run_of not_newline r2)
    with ((blanks ++ [slash; slash]) ++ run_of not_newline r2)
    by now rewrite <- app_assoc.
  rewrite length_app, Nat.add_comm, <- skipn_skipn.
  rewrite skipn_app_exact. apply stops_after_run_of.
Qed.

Lemma scan_whitespace_stops (s found : bytes) :
  scan_whitespace s = Some found ->
  stops is_space (skipn (length found) s) = true.
Proof.
  unfold scan_whitespace. pose proof (stops_after_run_of is_space s) as H.
  destruct (run_of is_space s); [discriminate|]. now intros [= <-].
Qed.

Lemma scan_identifier_stops (s found : bytes) :
  scan_identifier s = Some found ->
  stops is_word (skipn (length found) s) = true.
Proof.
  unfold scan_identifier.
  destruct s as [|b s]; [discriminate|].
  destruct (is_letter b).
  - intros [= <-]. cbn [length skipn]. apply stops_after_run_of.
  - destruct (Byte.eqb b colon); [|discriminate].
    destruct s as [|l s]; [discriminate|].
    destruct (is_letter l); [|discriminate].
    intros [= <-]. cbn [length skipn]. apply stops_after_run_of.
Qed.

Lemma scan_fraction_stops (s : bytes) :
  stops is_digit s = true ->
  stops is_digit (skipn (length (scan_fraction s)) s) = true.
Proof.
  intros H. unfold scan_fraction. destruct s as [|b s]; [reflexivity|].
  destruct (Byte.eqb b dot); [|exact H].
  pose proof (stops_after_run_of is_digit s) as Hs.
  destruct (run_of is_digit s); [exact H|exact Hs].
Qed.

Lemma scan_number_stops (s found : bytes) :
  scan_number s = Some found ->
  stops is_digit (skipn (length found) s) = true.
Proof.
  unfold scan_number.
  pose proof (stops_after_run_of is_digit s) as Hs.
  destruct (run_of is_digit s) as [|d ds]; [discriminate|].
  intros [= <-]. rewrite app_comm_cons, length_app, Nat.add_comm.
  rewrite <- skipn_skipn. now apply scan_fraction_stops.
Qed.

(** X1.  [getComment] takes the blanks at the head of the text, the two
    slashes that follow them and the rest of the line, and stops before the
    line feed; it finds nothing when the blanks are not followed by two
    slashes. *)
Theorem getComment_scans (t : Tokenizer) :
  getComment t
  = Ok (match scan_comment (remaining t) with
        | Some found =>
            (Some (token_at t TypeComment found), advanced (length found) t)
        | None => (None, t)
        end) /\
  (forall found, scan_comment (remaining t) = Some found ->
     stops not_newline (skipn (length found) (remaining t)) = true).
Proof.
  split; [now rewrite getComment_eq, Find_commentRegex|].
  intros found. apply scan_comment_stops.
Qed.

(** X2.  [getWhitespace] takes the longest run of spaces, tabs and carriage
    returns at the head of the text, and finds nothing when that run is
    empty; after it the text does not begin with such a byte. *)
Theorem getWhitespace_scans (t : Tokenizer) :
  getWhitespace t
  = Ok (match run_of is_space (remaining t) with
        | [] => (None, t)
        | found =>
            (Some (token_at t TypeWhitespace found), advanced (length found) t)
        end) /\
  stops is_space
    (skipn (length (run_of is_space (remaining t))) (remaining t)) = true.
Proof.
  split; [|apply stops_after_run_of].
  rewrite getWhitespace_eq, Find_whitespaceRegex. unfold scan_whitespace.
  now destruct (run_of is_space (remaining t)).
Qed.

(** X3.  [getIdentifier] accepts a letter, or a colon followed by a letter,
    and takes with it the longest run of letters, digits and underscores
    that follows; it finds nothing on any other text, in particular on a
    text that begins with a digit, an underscore or a colon with no letter
    after it. *)
Theorem getIdentifier_scans (t : Tokenizer) :
  getIdentifier t
  = Ok (match scan_identifier (remaining t) with
        | Some found =>
            (Some (token_at t TypeID found), advanced (length found) t)
        | None => (None, t)
        end) /\
  (forall found, scan_identifier (remaining t) = Some found ->
     stops is_word (skipn (length found) (remaining t)) = true).
Proof.
  split; [now rewrite getIdentifier_eq, Find_identifierRegex|].
  intros found. apply scan_identifier_stops.
Qed.

(** X4.  [getNumberConstant] takes the longest run of digits at the head of
    the text, and with it a dot only when a digit follows the dot, then the
    longest run of digits after the dot; it finds nothing when the text does
    not begin with a digit, and after it the text does not begin with a
    digit. *)
Theorem getNumberConstant_scans (t : Tokenizer) :
  getNumberConstant t
  = Ok (match scan_number (remaining t) with
        | Some found =>
            (Some (token_at t TypeNumber found), advanced (length found) t)
        | None => (None, t)
        end) /\
  (forall found, scan_number (remaining t) = Some found ->
     stops is_digit (skipn (length found) (remaining t)) = true).
Proof.
  split; [now rewrite getNumberConstant_eq, Find_numberRegex|].
  intros found. apply scan_number_stops.
Qed.

(* ===================================================================== *)
(** ** The cascade, case by case *)
(* ===================================================================== *)

Lemma stops_not_word_at (s : bytes) :
  stops is_word s = negb (is_word_at (hd_error s)).
Proof. now destruct s. Qed.

(** What stands behind each kind of token [Next] finds. *)
Lemma recognize_Found_inv (rem : bytes) (typ : string) (val : bytes) (n : nat) :
  recognize rem = Found typ val n ->
  (typ = TypeComment /\ scan_comment rem = Some val /\ n = length val) \/
  (typ = TypeWhitespace /\ scan_whitespace rem = Some val /\ n = length val) \/
  (typ = TypeKeyword /\ n = length val /\
   exists rest, In val keywords /\ rem = val ++ rest /\
                stops is_word rest = true) \/
  (typ = TypeSymbol /\ find (HasPrefix rem) symbols = Some val /\
   n = length val) \/
  (typ = TypeID /\ scan_identifier rem = Some val /\ n = length val) \/
  (typ = TypeString /\
   exists s i, rem = quote :: s /\ first_unescaped_quote s i /\
               val = firstn i s /\ n = (i + 2)%nat) \/
  (typ = TypeNumber /\ scan_number rem = Some val /\ n = length val) \/
  (typ = TypeUnknown /\ n = 1%nat /\
   exists b rest, rem = b :: rest /\ val = string_of_byte b /\
     scan_comment rem = None /\ is_space b = false /\
     Byte.eqb b newline = false /\
     find (HasPrefix rem) symbols = None /\
     is_letter b = false /\ is_digit b = false /\ string_end rem = None).
Proof.
  unfold recognize.
  rewrite Find_commentRegex, Find_whitespaceRegex, Find_identifierRegex,
    Find_numberRegex.
  destruct (scan_comment rem) as [f|] eqn:E1.
  { intros [= <- <- <-]. tauto. }
  destruct rem as [|b rest] eqn:E; [discriminate|]. rewrite <- E in *.
  destruct (scan_whitespace rem) as [f|] eqn:E2.
  { intros [= <- <- <-]. tauto. }
  destruct (find_from keywordRegex None rem) as [m|] eqn:E3.
  { intros [= <- <- <-].
    apply find_keywordRegex_inv in E3 as (kw & rest' & Hin & E3 & -> & _ & B).
    cbn [fst]. right; right; left. repeat split. exists rest'.
    repeat split; [assumption..|].
    unfold word_boundary in B. rewrite keyword_last_is_word in B by assumption.
    rewrite stops_not_word_at. now destruct (is_word_at (hd_error rest')). }
  destruct (Byte.eqb b newline) eqn:E4; [discriminate|].
  destruct (find (HasPrefix rem) symbols) as [sym|] eqn:E5.
  { intros [= <- <- <-]. tauto. }
  destruct (scan_identifier rem) as [f|] eqn:E6.
  { intros [= <- <- <-]. tauto. }
  destruct (string_end rem) as [i|] eqn:E7.
  { intros [= <- <- <-]. do 5 right. left. split; [reflexivity|].
    apply string_end_Some_inv in E7 as (s & E7 & H7). exists s, i.
    rewrite E7. cbn [skipn]. auto. }
  destruct (scan_number rem) as [f|] eqn:E8.
  { intros [= <- <- <-]. tauto. }
  intros [= <- <- <-]. do 7 right. repeat split. exists b, rest.
  rewrite E in *. repeat split; try assumption; try reflexivity.
  - unfold scan_whitespace in E2. cbn [run_of] in E2.
    now destruct (is_space b).
  - cbn [scan_identifier] in E6. now destruct (is_letter b).
  - unfold scan_number in E8. cbn [run_of] in E8. now destruct (is_digit b).
Qed.

(** X5.  [Next] only returns an Unknown token for a byte that no recognizer
    starts on: it is not a space, tab, carriage return or line feed, not a
    letter, not a digit, no symbol is a prefix of the text, and the text does
    not begin a comment.  One byte is consumed, and the value of the token
    is the conversion of that byte to a string: the byte itself when it is
    below 0x80, and otherwise the two bytes of the UTF-8 encoding of the
    code point of that number, which are not bytes of the text. *)
Theorem Next_Unknown_only_for_unrecognized (t : Tokenizer) (tok : Token)
        (t' : Tokenizer) :
  Next t = Ok (tok, t') ->
  Type_ tok = TypeUnknown ->
  exists b rest,
    remaining t = b :: rest /\
    tok = token_at t TypeUnknown (string_of_byte b) /\
    (is_ascii b = true -> Value tok = [b]) /\
    (is_ascii b = false ->
     Value tok = [byte_of_N (192 + Byte.to_N b / 64);
                  byte_of_N (128 + Byte.to_N b mod 64)]) /\
    t' = advanced 1 t /\ remaining t' = rest /\
    is_space b = false /\ b <> newline /\
    is_letter b = false /\ is_digit b = false /\
    (forall symbol, In symbol symbols ->
                    HasPrefix (remaining t) symbol = false) /\
    scan_comment (remaining t) = None.
Proof.
  intros H Htyp. rewrite Next_eq in H. injection H as H.
  assert (Ht : tok = fst (Next_result t) /\ t' = snd (Next_result t))
    by now rewrite H.
  destruct Ht as [-> ->]. clear H. unfold Next_result in *.
  destruct (recognize (remaining t)) as [typ val n| |] eqn:E;
    cbn [fst snd Type_ token_at] in Htyp |- *;
    [|vm_compute in Htyp; discriminate..].
  subst typ. apply recognize_Found_inv in E.
  repeat (destruct E as [[E _]|E]; [vm_compute in E; discriminate|]).
  destruct E as (_ & -> & b & rest & E & -> & Hc & Hs & Hn & Hsym & Hl & Hd & _).
  exists b, rest. cbn [advanced remaining]. rewrite E in *.
  split; [reflexivity|]. split; [reflexivity|].
  cbn [Value]. unfold string_of_byte, is_ascii.
  split; [now intros ->|]. split; [now intros ->|].
  split; [reflexivity|].
  split; [reflexivity|]. split; [assumption|].
  split; [intros ->; discriminate Hn|].
  split; [assumption|]. split; [assumption|]. split; [|assumption].
  intros symbol Hin. destruct (HasPrefix (b :: rest) symbol) eqn:Hp;
    [|reflexivity].
  now rewrite (find_none _ _ Hsym symbol Hin) in Hp.
Qed.

(* ===================================================================== *)
(** ** One token after the other *)
(* ===================================================================== *)

Ltac split_kinds E :=
  repeat match type of E with
         | _ \/ _ => destruct E as [E|E]
         end;
  let K := fresh "K" in
  destruct E as [K E];
  try (vm_compute in K; discriminate K).

(** Where the text stands after a token. *)
Lemma recognize_Found_rest (rem : bytes) (typ : string) (val : bytes) (n : nat) :
  recognize rem = Found typ val n ->
  (typ = TypeWhitespace -> stops is_space (skipn n rem) = true) /\
  (typ = TypeNumber -> stops is_digit (skipn n rem) = true) /\
  (typ = TypeComment -> stops not_newline (skipn n rem) = true) /\
  (typ = TypeID \/ typ = TypeKeyword -> stops is_word (skipn n rem) = true).
Proof.
  intros E. apply recognize_Found_inv in E.
  split; [|split; [|split]].
  - intros ->. split_kinds E. destruct E as [E ->].
    now apply scan_whitespace_stops.
  - intros ->. split_kinds E. destruct E as [E ->].
    now apply scan_number_stops.
  - intros ->. split_kinds E. destruct E as [E ->].
    now apply scan_comment_stops.
  - intros [-> | ->]; split_kinds E.
    + destruct E as [E ->]. now apply scan_identifier_stops.
    + destruct E as (-> & rest & _ & -> & H). now rewrite skipn_app_exact.
Qed.

Lemma recognize_not_Whitespace (rem val : bytes) (n : nat) :
  stops is_space rem = true -> recognize rem <> Found TypeWhitespace val n.
Proof.
  intros H E. apply recognize_Found_inv in E. split_kinds E.
  destruct E as [E _]. unfold scan_whitespace in E.
  destruct rem as [|b rest]; [discriminate|].
  cbn [run_of stops] in *. now destruct (is_space b).
Qed.

Lemma recognize_not_Number (rem val : bytes) (n : nat) :
  stops is_digit rem = true -> recognize rem <> Found TypeNumber val n.
Proof.
  intros H E. apply recognize_Found_inv in E. split_kinds E.
  destruct E as [E _]. unfold scan_number in E.
  destruct rem as [|b rest]; [discriminate|].
  cbn [run_of stops] in *. now destruct (is_digit b).
Qed.

Lemma is_digit_is_word (b : byte) : is_digit b = true -> is_word b = true.
Proof. unfold is_word. intros ->. now rewrite orb_true_r. Qed.

Lemma recognize_not_Keyword (rem val : bytes) (n : nat) :
  stops is_word rem = true -> recognize rem <> Found TypeKeyword val n.
Proof.
  intros H E. apply recognize_Found_inv in E. split_kinds E.
  destruct E as (_ & rest & Hin & -> & _).
  destruct (keyword_letters val Hin) as (l & kw' & -> & Hl & _).
  cbn [app stops] in H. unfold is_word in H. now rewrite Hl in H.
Qed.

Lemma recognize_after_line (rem : bytes) :
  stops not_newline rem = true ->
  recognize rem = FoundNewline \/ recognize rem = FoundEOF.
Proof.
  destruct rem as [|b rest]; [now right|].
  cbn [stops]. unfold not_newline. rewrite negb_involutive. intros H.
  apply byte_dec_bl in H. subst b. left. apply recognize_newline.
Qed.

Lemma Next_result_Type (t : Tokenizer) :
  Type_ (fst (Next_result t))
  = match recognize (remaining t) with
    | Found typ _ _ => typ
    | FoundNewline => TypeNewline
    | FoundEOF => TypeEOF
    end.
Proof. unfold Next_result. now destruct (recognize (remaining t)). Qed.

Lemma Next_result_may_follow (t : Tokenizer) :
  may_follow (fst (Next_result t))
             (fst (Next_result (snd (Next_result t)))).
Proof.
  unfold may_follow. rewrite !Next_result_Type.
  unfold Next_result at 1 2 3 4 5 6 7.
  destruct (recognize (remaining t)) as [typ val n| |] eqn:E;
    cbn [fst snd advanced next_line remaining].
  - destruct (recognize_Found_rest _ _ _ _ E) as (H1 & H2 & H3 & H4).
    apply recognize_Found_inv in E.
    repeat split.
    + intros K. specialize (H1 K).
      destruct (recognize (skipn n (remaining t))) as [typ' val' n'| |] eqn:E';
        [|intros K'; vm_compute in K'; discriminate..].
      intros ->. now apply (recognize_not_Whitespace _ val' n' H1).
    + intros K. specialize (H2 K).
      destruct (recognize (skipn n (remaining t))) as [typ' val' n'| |] eqn:E';
        [|intros K'; vm_compute in K'; discriminate..].
      intros ->. now apply (recognize_not_Number _ val' n' H2).
    + intros K. specialize (H3 K).
      destruct (recognize_after_line _ H3) as [-> | ->]; [now left|now right].
    + intros ->. split_kinds E.
    + specialize (H4 H).
      destruct (recognize (skipn n (remaining t))) as [typ' val' n'| |] eqn:E';
        [|intros K'; vm_compute in K'; discriminate..].
      intros ->. now apply (recognize_not_Keyword _ val' n' H4).
    + specialize (H4 H).
      destruct (recognize (skipn n (remaining t))) as [typ' val' n'| |] eqn:E';
        [|intros K'; vm_compute in K'; discriminate..].
      intros ->.
      apply (recognize_not_Number (skipn n (remaining t)) val' n');
        [|exact E'].
      clear E'. destruct (skipn n (remaining t)) as [|b r]; [reflexivity|].
      cbn [stops] in *. destruct (is_digit b) eqn:Ed; [|reflexivity].
      now rewrite (is_digit_is_word b Ed) in H4.
  - split; [|split; [|split; [|split]]];
      intros K; try destruct K as [K|K]; vm_compute in K; discriminate K.
  - apply recognize_FoundEOF in E. rewrite E.
    split; [|split; [|split; [|split]]]; try reflexivity;
      intros K; try destruct K as [K|K]; vm_compute in K; discriminate K.
Qed.

Lemma Next_n_result_adjacent (R : Token -> Token -> Prop) :
  (forall t, R (fst (Next_result t))
               (fst (Next_result (snd (Next_result t))))) ->
  forall n t i a b,
    nth_error (fst (Next_n_result n t)) i = Some a ->
    nth_error (fst (Next_n_result n t)) (S i) = Some b ->
    R a b.
Proof.
  intros HR. induction n as [|n IH]; intros t i a b Ha Hb.
  - destruct i; discriminate.
  - cbn [Next_n_result fst] in Ha, Hb. destruct i as [|i].
    + injection Ha as <-. cbn [nth_error] in Hb.
      destruct n as [|n]; [discriminate|].
      cbn [Next_n_result fst nth_error] in Hb. injection Hb as <-. apply HR.
    + cbn [nth_error] in Ha, Hb. exact (IH _ i a b Ha Hb).
Qed.

(** X6.  In the stream of tokens, from any state: a Whitespace token is
    never followed by a Whitespace token, nor a Number token by a Number
    token; a Comment token is followed by a Newline token or by the end of
    input; the end of input is only followed by the end of input; and an
    identifier or a keyword is never followed by a keyword or a number. *)
Theorem tokens_in_a_row (t : Tokenizer) (n : nat) :
  exists toks t',
    Next_n n t = Ok (toks, t') /\ length toks = n /\
    forall i a b,
      nth_error toks i = Some a -> nth_error toks (S i) = Some b ->
      may_follow a b.
Proof.
  exists (fst (Next_n_result n t)), (snd (Next_n_result n t)).
  rewrite Next_n_eq. split; [now destruct (Next_n_result n t)|].
  split; [apply Next_n_result_length|].
  apply (Next_n_result_adjacent may_follow Next_result_may_follow).
Qed.

(* ===================================================================== *)
(** ** The text behind the tokens *)
(* ===================================================================== *)

Lemma unknown_byte_string_of_byte (b : byte) :
  unknown_byte (string_of_byte b) = b.
Proof. destruct b; reflexivity. Qed.

Lemma nth_error_split_at (s : bytes) (i : nat) (b : byte) :
  nth_error s i = Some b -> s = firstn i s ++ b :: skipn (S i) s.
Proof.
  revert i. induction s as [|c s IH]; intros [|i] H; try discriminate.
  - now injection H as ->.
  - cbn [firstn skipn app]. f_equal. now apply IH.
Qed.

Lemma scan_prefix (r : regexp) (s found : bytes) :
  Find (Concat BeginText r) s = Some found -> s = found ++ skipn (length found) s.
Proof.
  intros H. apply Find_anchored_prefix in H as [[rest H] _].
  rewrite H at 2. now rewrite skipn_app_exact.
Qed.

(** A token and what is left after it make up the text before it. *)
Lemma recognize_Found_source (t : Tokenizer) (typ : string) (val : bytes)
      (n : nat) :
  recognize (remaining t) = Found typ val n ->
  source_text (token_at t typ val) ++ skipn n (remaining t) = remaining t.
Proof.
  intros E. apply recognize_Found_inv in E.
  repeat match type of E with
         | _ \/ _ => destruct E as [E|E]
         end.
  - destruct E as (-> & E & ->). rewrite <- Find_commentRegex in E.
    symmetry. exact (scan_prefix _ _ _ E).
  - destruct E as (-> & E & ->). rewrite <- Find_whitespaceRegex in E.
    symmetry. exact (scan_prefix _ _ _ E).
  - destruct E as (-> & -> & rest & _ & E & _). rewrite E.
    now rewrite skipn_app_exact.
  - destruct E as (-> & E & ->). apply find_some in E as [_ E].
    apply HasPrefix_inv in E as [rest E]. rewrite E.
    now rewrite skipn_app_exact.
  - destruct E as (-> & E & ->). rewrite <- Find_identifierRegex in E.
    symmetry. exact (scan_prefix _ _ _ E).
  - destruct E as (-> & s & i & E & [[Hq _] _] & -> & ->). rewrite E.
    replace (i + 2)%nat with (S (S i)) by lia.
    change (quote :: (firstn i s ++ [quote]) ++ skipn (S i) s = quote :: s).
    rewrite <- app_assoc. f_equal. symmetry. now apply nth_error_split_at.
  - destruct E as (-> & E & ->). rewrite <- Find_numberRegex in E.
    symmetry. exact (scan_prefix _ _ _ E).
  - destruct E as (-> & -> & b & rest & E & -> & _). rewrite E.
    change ([unknown_byte (string_of_byte b)] ++ rest = b :: rest).
    now rewrite unknown_byte_string_of_byte.
Qed.

Lemma Next_result_source (t : Tokenizer) :
  source_text (fst (Next_result t)) ++ remaining (snd (Next_result t))
  = remaining t.
Proof.
  unfold Next_result.
  destruct (recognize (remaining t)) as [typ val n| |] eqn:E;
    cbn [fst snd advanced next_line remaining].
  - now apply recognize_Found_source.
  - apply recognize_FoundNewline in E as [rest E]. now rewrite E.
  - apply recognize_FoundEOF in E. now rewrite E.
Qed.

Lemma Next_n_result_source (n : nat) (t : Tokenizer) :
  concat (map source_text (fst (Next_n_result n t)))
    ++ remaining (snd (Next_n_result n t))
  = remaining t.
Proof.
  revert t. induction n as [|n IH]; intros t; [reflexivity|].
  cbn [Next_n_result fst snd map concat]. rewrite <- app_assoc, IH.
  apply Next_result_source.
Qed.

Lemma Next_result_shorter (t : Tokenizer) :
  (length (remaining (snd (Next_result t))) <= length (remaining t) - 1)%nat.
Proof.
  unfold Next_result.
  destruct (recognize (remaining t)) as [typ val n| |] eqn:E;
    cbn [fst snd advanced next_line remaining].
  - apply recognize_Found in E. rewrite length_skipn. lia.
  - rewrite length_skipn. lia.
  - apply recognize_FoundEOF in E. rewrite E. simpl. lia.
Qed.

Lemma Next_n_result_shorter (n : nat) (t : Tokenizer) :
  (length (remaining (snd (Next_n_result n t)))
   <= length (remaining t) - n)%nat.
Proof.
  revert t. induction n as [|n IH]; intros t; cbn [Next_n_result snd]; [lia|].
  specialize (IH (snd (Next_result t))).
  pose proof (Next_result_shorter t). lia.
Qed.

(** X7.  Tokenizing loses nothing: the bytes the tokens of any number of
    calls stand for (a line feed for a Newline token, the value between its
    quotes for a String token, the byte behind an Unknown token, the value
    for the others), put one after the other and followed by what remains,
    are the text that was unconsumed before the calls; and after as many
    calls as there were bytes nothing remains. *)
Theorem tokens_cover_the_text (t : Tokenizer) (n : nat) :
  exists toks t',
    Next_n n t = Ok (toks, t') /\
    concat (map source_text toks) ++ remaining t' = remaining t /\
    ((length (remaining t) <= n)%nat ->
     remaining t' = [] /\ concat (map source_text toks) = remaining t).
Proof.
  exists (fst (Next_n_result n t)), (snd (Next_n_result n t)).
  rewrite Next_n_eq. split; [now destruct (Next_n_result n t)|].
  pose proof (Next_n_result_source n t) as H. split; [exact H|].
  intros Hn. pose proof (Next_n_result_shorter n t) as Hs.
  assert (E : remaining (snd (Next_n_result n t)) = []).
  { destruct (remaining (snd (Next_n_result n t))); [reflexivity|].
    simpl in Hs. lia. }
  split; [exact E|]. now rewrite E, app_nil_r in H.
Qed.

(** The number of bytes a token stands for is the number [Next] consumes. *)
Lemma recognize_Found_width (t : Tokenizer) (typ : string) (val : bytes)
      (n : nat) :
  recognize (remaining t) = Found typ val n ->
  length (source_text (token_at t typ val)) = n.
Proof.
  intros E. pose proof (recognize_Found_source t typ val n E) as H.
  apply recognize_Found in E. apply (f_equal (@length byte)) in H.
  rewrite length_app, length_skipn in H. lia.
Qed.

(** The counters after one call are those [position_after] gives. *)
Lemma Next_result_position (t : Tokenizer) :
  0 <= column t -> 1 <= line t ->
  column t + len (remaining t) <= int_max ->
  line t + len (remaining t) <= int_max ->
  NewPosition (line (snd (Next_result t))) (column (snd (Next_result t)))
  = position_after (NewPosition (line t) (column t)) [fst (Next_result t)].
Proof.
  intros Hc Hl Hcb Hlb. unfold Next_result, len in *.
  destruct (recognize (remaining t)) as [typ val n| |] eqn:E;
    cbn [fst snd advanced next_line line column position_after Line Coloumn].
  - pose proof (recognize_Found_width t typ val n E) as Hw.
    pose proof (recognize_Found _ _ _ _ E) as Hn.
    apply recognize_Found_inv in E.
    assert (Ht : String.eqb typ TypeNewline = false).
    { repeat match type of E with
             | _ \/ _ => destruct E as [E|E]
             end; destruct E as [-> _]; reflexivity. }
    change (Type_ (token_at t typ val)) with typ. rewrite Ht.
    unfold len. rewrite Hw.
    unfold int_add. rewrite wrap_small; [reflexivity|].
    unfold int_min, int_max in *. lia.
  - apply recognize_FoundNewline in E as [rest E]. rewrite E in *.
    cbn [length] in *.
    change (Type_ (token_at t TypeNewline [])) with TypeNewline.
    change (String.eqb TypeNewline TypeNewline) with true. cbn iota.
    unfold int_add. rewrite !wrap_small; [reflexivity|..];
      unfold int_min, int_max in *; lia.
  - change (Type_ (token_at t TypeEOF [])) with TypeEOF.
    change (String.eqb TypeEOF TypeNewline) with false. cbn iota.
    change (len (source_text (token_at t TypeEOF []))) with 0.
    now rewrite Z.add_0_r.
Qed.

Lemma Next_result_counters_kept (t : Tokenizer) :
  counters_within int_max t ->
  counters_within int_max (snd (Next_result t)).
Proof.
  intros (Hc & Hl & Hcb & Hlb).
  pose proof (Next_result_position t Hc Hl Hcb Hlb) as Hp.
  pose proof (Next_result_source t) as Hs.
  apply (f_equal (@length byte)) in Hs. rewrite length_app in Hs.
  cbn [position_after] in Hp. unfold counters_within, len in *.
  destruct (String.eqb (Type_ (fst (Next_result t))) TypeNewline) eqn:E.
  - injection Hp as -> ->.
    assert (Hw : length (source_text (fst (Next_result t))) = 1%nat)
      by (unfold source_text; now rewrite E).
    lia.
  - injection Hp as -> ->. lia.
Qed.

Lemma position_after_cons (p : Position) (tok : Token) (toks : list Token) :
  position_after p (tok :: toks)
  = position_after (position_after p [tok]) toks.
Proof. reflexivity. Qed.

Lemma Next_n_result_position (n : nat) (t : Tokenizer) :
  counters_within int_max t ->
  NewPosition (line (snd (Next_n_result n t))) (column (snd (Next_n_result n t)))
  = position_after (NewPosition (line t) (column t)) (fst (Next_n_result n t)) /\
  forall i tok,
    nth_error (fst (Next_n_result n t)) i = Some tok ->
    Pos tok
    = position_after (NewPosition (line t) (column t))
                     (firstn i (fst (Next_n_result n t))).
Proof.
  revert t. induction n as [|n IH]; intros t H.
  - split; [reflexivity|]. intros [|i] tok Hi; discriminate.
  - destruct (IH _ (Next_result_counters_kept t H)) as [IH1 IH2].
    destruct H as (Hc & Hl & Hcb & Hlb).
    pose proof (Next_result_position t Hc Hl Hcb Hlb) as Hp.
    cbn [Next_n_result fst snd]. split.
    + now rewrite position_after_cons, <- Hp.
    + intros [|i] tok Hi.
      * injection Hi as <-. apply Next_result_Pos.
      * cbn [nth_error] in Hi. cbn [firstn].
        rewrite position_after_cons, <- Hp. now apply IH2.
Qed.

(** X8.  As long as the counters do not overflow, the position of every
    token, and the line and column of the tokenizer after the calls, are
    those reached from the starting position through the tokens before: a
    Newline token leads to column 1 of the next line, every other token
    moves the column by the number of bytes it stands for.  So lines are
    counted by Newline tokens only: a line feed inside a string literal
    moves the column and not the line. *)
Theorem positions_follow_the_tokens (t : Tokenizer) (n : nat) :
  counters_within int_max t ->
  exists toks t',
    Next_n n t = Ok (toks, t') /\
    NewPosition (line t') (column t')
    = position_after (NewPosition (line t) (column t)) toks /\
    forall i tok,
      nth_error toks i = Some tok ->
      Pos tok = position_after (NewPosition (line t) (column t))
                               (firstn i toks).
Proof.
  intros H. exists (fst (Next_n_result n t)), (snd (Next_n_result n t)).
  rewrite Next_n_eq. split; [now destruct (Next_n_result n t)|].
  now apply Next_n_result_position.
Qed.

Lemma string_of_byte_not_nil (b : byte) : string_of_byte b <> [].
Proof. unfold string_of_byte. now destruct (_ <? _)%N. Qed.

(** X9.  A token has an empty value only when it is a Newline token, the
    end-of-input token, or the String token of an empty literal (two quotes
    in a row); every other token carries at least one byte. *)
Theorem empty_value_tokens (t : Tokenizer) (tok : Token) (t' : Tokenizer) :
  Next t = Ok (tok, t') ->
  Value tok = [] ->
  Type_ tok = TypeNewline \/ Type_ tok = TypeEOF \/
  (Type_ tok = TypeString /\ exists rest, remaining t = quote :: quote :: rest).
Proof.
  intros H Hv. rewrite Next_eq in H. injection H as H.
  assert (Ht : tok = fst (Next_result t)) by now rewrite H.
  subst tok. clear H. unfold Next_result in *.
  destruct (recognize (remaining t)) as [typ val n| |] eqn:E;
    cbn [fst Type_ Value token_at] in *; [|now left|now right; left].
  subst val. pose proof (recognize_Found _ _ _ _ E) as Hn.
  apply recognize_Found_inv in E.
  repeat match type of E with
         | _ \/ _ => destruct E as [E|E]
         end.
  - destruct E as (_ & _ & ->). simpl in Hn. lia.
  - destruct E as (_ & _ & ->). simpl in Hn. lia.
  - destruct E as (_ & -> & _). simpl in Hn. lia.
  - destruct E as (_ & _ & ->). simpl in Hn. lia.
  - destruct E as (_ & _ & ->). simpl in Hn. lia.
  - destruct E as (-> & s & i & E & [[Hq _] _] & Hf & _).
    right; right. split; [reflexivity|]. rewrite E.
    destruct i as [|i].
    + destruct s as [|b s]; [discriminate|]. injection Hq as ->. now exists s.
    + destruct s as [|b s]; discriminate.
  - destruct E as (_ & _ & ->). simpl in Hn. lia.
  - destruct E as (_ & _ & b & rest & _ & Hb & _). symmetry in Hb.
    now apply string_of_byte_not_nil in Hb.
Qed.

(* ===================================================================== *)
(** ** Positions and their rendering *)
(* ===================================================================== *)

Lemma wrap_add_wrap (a b : Z) : wrap (wrap a + b) = wrap (a + b).
Proof.
  unfold wrap. f_equal.
  replace ((a + 2 ^ 63) mod 2 ^ 64 - 2 ^ 63 + b + 2 ^ 63)
    with ((a + 2 ^ 63) mod 2 ^ 64 + b) by lia.
  rewrite Z.add_mod_idemp_l by lia. f_equal. lia.
Qed.

(** X10.  [Add] and [Sub] by the same amount undo each other, also when the
    column wraps around on the way, and leave the line alone. *)
Theorem Position_Add_Sub (p : Position) (col : Z) :
  int_min <= Coloumn p <= int_max ->
  Position_Sub (Position_Add p col) col = p /\
  Position_Add (Position_Sub p col) col = p /\
  Line (Position_Add p col) = Line p /\
  Line (Position_Sub p col) = Line p.
Proof.
  intros H. destruct p as [l c]. cbn [Coloumn] in H.
  unfold Position_Sub, Position_Add, int_add, int_sub. cbn [Line Coloumn].
  repeat split; f_equal.
  - replace (wrap (c + col) - col) with (wrap (c + col) + - col) by lia.
    rewrite wrap_add_wrap. replace (c + col + - col) with c by lia.
    now apply wrap_small.
  - replace (c - col) with (c + - col) by lia.
    rewrite wrap_add_wrap. replace (c + - col + col) with c by lia.
    now apply wrap_small.
Qed.

Lemma lit_injective (s1 s2 : string) : lit s1 = lit s2 -> s1 = s2.
Proof.
  unfold lit. intros H. apply (f_equal string_of_list_byte) in H.
  now rewrite !string_of_list_byte_of_string in H.
Qed.

Lemma format_int_injective (z1 z2 : Z) :
  format_int z1 = format_int z2 -> z1 = z2.
Proof.
  unfold format_int. intros H. apply lit_injective in H.
  apply (f_equal NilEmpty.int_of_string) in H.
  rewrite !NilEmpty.isi in H. injection H as H.
  apply (f_equal Z.of_int) in H. now rewrite !DecimalZ.of_to in H.
Qed.

Lemma lit_String (a : Ascii.ascii) (s : string) :
  lit (String a s) = Ascii.byte_of_ascii a :: lit s.
Proof. reflexivity. Qed.

Lemma string_of_uint_numeral (d : Decimal.uint) :
  forallb is_numeral_byte (lit (NilEmpty.string_of_uint d)) = true.
Proof.
  induction d; cbn [NilEmpty.string_of_uint]; [reflexivity|..];
    rewrite lit_String; cbn [forallb]; now rewrite IHd.
Qed.

Lemma format_int_numeral (z : Z) :
  forallb is_numeral_byte (format_int z) = true.
Proof.
  unfold format_int. destruct (Z.to_int z) as [d|d];
    cbn [NilEmpty.string_of_int].
  - apply string_of_uint_numeral.
  - rewrite lit_String. cbn [forallb]. now rewrite string_of_uint_numeral.
Qed.

(** Two texts that begin with a run of a class, each followed by a byte
    outside the class, and are equal: the runs are equal. *)
Lemma run_then_stop_injective (c : byte -> bool) (a b x y : bytes) :
  forallb c a = true -> forallb c b = true ->
  stops c x = true -> stops c y = true ->
  a ++ x = b ++ y -> a = b /\ x = y.
Proof.
  revert b. induction a as [|a0 a IH]; intros [|b0 b] Ha Hb Hx Hy H;
    cbn [app forallb] in *.
  - now split.
  - subst x. cbn [stops] in Hx. apply andb_true_iff in Hb as [Hb _].
    now rewrite Hb in Hx.
  - subst y. cbn [stops] in Hy. apply andb_true_iff in Ha as [Ha _].
    now rewrite Ha in Hy.
  - injection H as -> H.
    apply andb_true_iff in Ha as [_ Ha]. apply andb_true_iff in Hb as [_ Hb].
    destruct (IH b Ha Hb Hx Hy H) as [-> ->]. now split.
Qed.

Lemma Position_String_parts (p q : Position) (x y : bytes) :
  stops is_numeral_byte x = true -> stops is_numeral_byte y = true ->
  Position_String p ++ x = Position_String q ++ y -> p = q /\ x = y.
Proof.
  intros Hx Hy H. unfold Position_String in H.
  rewrite <- !app_assoc in H. apply app_inv_head in H.
  apply run_then_stop_injective with (c := is_numeral_byte) in H
    as [HL H]; try apply format_int_numeral; try reflexivity.
  apply app_inv_head in H.
  apply run_then_stop_injective with (c := is_numeral_byte) in H
    as [HC H]; try apply format_int_numeral; try assumption.
  apply format_int_injective in HL, HC.
  destruct p, q. cbn in *. now subst.
Qed.

(** X11.  The rendering of a position determines the position: its line and
    its column can be read back from the text. *)
Theorem Position_String_injective (p q : Position) :
  Position_String p = Position_String q -> p = q.
Proof.
  intros H.
  destruct (Position_String_parts p q [] []) as [Hp _];
    [reflexivity|reflexivity|now rewrite !app_nil_r|exact Hp].
Qed.

Lemma token_types_letters (typ : string) :
  In typ token_types -> forallb is_letter (lit typ) = true.
Proof.
  unfold token_types. simpl.
  intros H. repeat (destruct H as [<-|H]; [reflexivity|]). destruct H.
Qed.

(** X12.  The rendering of a token determines the token, for the ten token
    types: position, type and value can be read back from the text, and a
    token with an empty value is rendered with no value part. *)
Theorem Token_String_injective (a b : Token) :
  In (Type_ a) token_types -> In (Type_ b) token_types ->
  Token_String a = Token_String b -> a = b.
Proof.
  intros Ha Hb H. unfold Token_String in H.
  apply token_types_letters in Ha, Hb.
  assert (Hparts :
            Position_String (Pos a) ++ lit ", Type: " ++ lit (Type_ a)
              ++ match Value a with
                 | [] => []
                 | _ :: _ => lit ", Value: '" ++ Value a ++ lit "'"
                 end ++ [newline]
            = Position_String (Pos b) ++ lit ", Type: " ++ lit (Type_ b)
                ++ match Value b with
                   | [] => []
                   | _ :: _ => lit ", Value: '" ++ Value b ++ lit "'"
                   end ++ [newline]).
  { destruct (Value a), (Value b); cbn zeta in H;
      rewrite <- ?app_assoc in H; rewrite <- ?app_assoc;
      rewrite ?app_nil_l in *; exact H. }
  clear H. apply Position_String_parts in Hparts as [HP H];
    [|reflexivity|reflexivity].
  apply app_inv_head in H.
  apply run_then_stop_injective with (c := is_letter) in H as [HT H];
    try assumption;
    [|destruct (Value a); reflexivity|destruct (Value b); reflexivity].
  apply lit_injective in HT. apply app_inv_tail in H.
  assert (HV : Value a = Value b).
  { destruct (Value a) as [|x xs], (Value b) as [|y ys];
      try reflexivity; try discriminate H.
    apply app_inv_head in H. now apply app_inv_tail in H. }
  destruct a, b. cbn in *. now subst.
Qed.

(* ===================================================================== *)
(** ** Loading again *)
(* ===================================================================== *)

Lemma Next_result_text (t : Tokenizer) :
  text (snd (Next_result t)) = text t.
Proof. unfold Next_result. now destruct (recognize (remaining t)). Qed.

Lemma Next_n_result_text (n : nat) (t : Tokenizer) :
  text (snd (Next_n_result n t)) = text t.
Proof.
  revert t. induction n as [|n IH]; intros t; cbn [Next_n_result snd].
  - reflexivity.
  - now rewrite IH, Next_result_text.
Qed.

(** X13.  [Load] starts afresh: whatever was loaded before and however many
    tokens were read from it, loading an input and reading tokens gives what
    a new tokenizer gives on that input, tokens and final state alike. *)
Theorem Load_starts_afresh (unicode_ToLower : bytes -> bytes)
    (t : Tokenizer) (first input : bytes) (k n : nat) :
  (Load unicode_ToLower first ;; Next_n k ;;
   Load unicode_ToLower input ;; Next_n n) t
  = (Load unicode_ToLower input ;; Next_n n) NewTokenizer /\
  exists toks t',
    (Load unicode_ToLower input ;; Next_n n) NewTokenizer = Ok (toks, t') /\
    tokenize unicode_ToLower input n = Ok toks /\
    length toks = n /\
    text t' = input.
Proof.
  split.
  - unfold bind. rewrite !Load_eq, Next_n_eq.
    destruct (Next_n_result k _) as [toks1 t1]. now rewrite Load_eq.
  - unfold tokenize, bind. rewrite Load_eq, Next_n_eq.
    destruct (Next_n_result n _) as [toks t'] eqn:E.
    exists toks, t'. repeat split.
    + apply (f_equal fst) in E. cbn [fst] in E. rewrite <- E.
      apply Next_n_result_length.
    + apply (f_equal snd) in E. cbn [snd] in E. rewrite <- E.
      apply Next_n_result_text.
Qed.

(* ===================================================================== *)
(** ** The further properties at the inputs of the examples *)
(* ===================================================================== *)

Lemma Next_Unknown_only_for_unrecognized_witness :
  exists b rest,
    remaining {| column := 1; line := 1; text := []; remaining := [xe9; x78] |}
    = b :: rest /\
    token_at {| column := 1; line := 1; text := []; remaining := [xe9; x78] |}
             TypeUnknown [xc3; xa9]
    = token_at {| column := 1; line := 1; text := [];
                  remaining := [xe9; x78] |}
               TypeUnknown (string_of_byte b) /\
    (is_ascii b = true ->
     Value (token_at {| column := 1; line := 1; text := [];
                        remaining := [xe9; x78] |} TypeUnknown [xc3; xa9])
     = [b]) /\
    (is_ascii b = false ->
     Value (token_at {| column := 1; line := 1; text := [];
                        remaining := [xe9; x78] |} TypeUnknown [xc3; xa9])
     = [byte_of_N (192 + Byte.to_N b / 64);
        byte_of_N (128 + Byte.to_N b mod 64)]) /\
    advanced 1 {| column := 1; line := 1; text := []; remaining := [xe9; x78] |}
    = advanced 1 {| column := 1; line := 1; text := [];
                    remaining := [xe9; x78] |} /\
    remaining (advanced 1 {| column := 1; line := 1; text := [];
                             remaining := [xe9; x78] |}) = rest /\
    is_space b = false /\ b <> newline /\
    is_letter b = false /\ is_digit b = false /\
    (forall symbol, In symbol symbols ->
       HasPrefix (remaining {| column := 1; line := 1; text := [];
                               remaining := [xe9; x78] |}) symbol = false) /\
    scan_comment (remaining {| column := 1; line := 1; text := [];
                               remaining := [xe9; x78] |}) = None.
Proof.
  apply (Next_Unknown_only_for_unrecognized
           {| column := 1; line := 1; text := []; remaining := [xe9; x78] |}
           (token_at {| column := 1; line := 1; text := [];
                        remaining := [xe9; x78] |} TypeUnknown [xc3; xa9])
           (advanced 1 {| column := 1; line := 1; text := [];
                          remaining := [xe9; x78] |})).
  - reflexivity.
  - reflexivity.
Defined.

Lemma positions_follow_the_tokens_witness :
  exists toks t',
    Next_n 8 {| column := 1; line := 1; text := two_lines;
                remaining := two_lines |} = Ok (toks, t') /\
    NewPosition (line t') (column t') = position_after (NewPosition 1 1) toks /\
    forall i tok,
      nth_error toks i = Some tok ->
      Pos tok = position_after (NewPosition 1 1) (firstn i toks).
Proof.
  apply (positions_follow_the_tokens
           {| column := 1; line := 1; text := two_lines;
              remaining := two_lines |} 8).
  unfold counters_within. repeat split; vm_compute; discriminate.
Defined.

Lemma empty_value_tokens_witness :
  Type_ (token_at {| column := 1; line := 1; text := [];
                     remaining := [quote; quote; x61] |} TypeString [])
  = TypeNewline \/
  Type_ (token_at {| column := 1; line := 1; text := [];
                     remaining := [quote; quote; x61] |} TypeString [])
  = TypeEOF \/
  (Type_ (token_at {| column := 1; line := 1; text := [];
                      remaining := [quote; quote; x61] |} TypeString [])
   = TypeString /\
   exists rest,
     remaining {| column := 1; line := 1; text := [];
                  remaining := [quote; quote; x61] |}
     = quote :: quote :: rest).
Proof.
  apply (empty_value_tokens
           {| column := 1; line := 1; text := [];
              remaining := [quote; quote; x61] |}
           (token_at {| column := 1; line := 1; text := [];
                        remaining := [quote; quote; x61] |} TypeString [])
           (advanced 2 {| column := 1; line := 1; text := [];
                          remaining := [quote; quote; x61] |})).
  - reflexivity.
  - reflexivity.
Defined.

Lemma Position_Add_Sub_witness :
  Position_Add (NewPosition 3 int_max) 1 = NewPosition 3 int_min /\
  Position_Sub (Position_Add (NewPosition 3 int_max) 1) 1
  = NewPosition 3 int_max /\
  Position_Add (Position_Sub (NewPosition 3 int_max) 1) 1
  = NewPosition 3 int_max /\
  Line (Position_Add (NewPosition 3 int_max) 1) = Line (NewPosition 3 int_max) /\
  Line (Position_Sub (NewPosition 3 int_max) 1) = Line (NewPosition 3 int_max).
Proof.
  split; [reflexivity|].
  apply (Position_Add_Sub (NewPosition 3 int_max) 1).
  cbn [Coloumn]. unfold int_min, int_max. lia.
Defined.

Lemma Position_String_injective_witness :
  Position_String (NewPosition 3 7) = lit "Line: 3, Coloumn: 7" /\
  NewPosition 3 7 = NewPosition (1 + 2) (8 - 1).
Proof.
  split; [reflexivity|].
  apply (Position_String_injective (NewPosition 3 7)
                                   (NewPosition (1 + 2) (8 - 1))).
  reflexivity.
Defined.

Lemma Token_String_injective_witness :
  Token_String {| Type_ := TypeID; Value := lit "abc"; Pos := NewPosition 1 2 |}
  = lit "Line: 1, Coloumn: 2, Type: ID, Value: 'abc'" ++ [newline] /\
  {| Type_ := TypeID; Value := lit "abc"; Pos := NewPosition 1 2 |}
  = {| Type_ := TypeID; Value := [x61; x62; x63]; Pos := NewPosition 1 (1 + 1) |}.
Proof.
  split; [reflexivity|].
  apply (Token_String_injective
           {| Type_ := TypeID; Value := lit "abc"; Pos := NewPosition 1 2 |}
           {| Type_ := TypeID; Value := [x61; x62; x63];
              Pos := NewPosition 1 (1 + 1) |}).
  - cbn [Type_]. unfold token_types. simpl. auto.
  - cbn [Type_]. unfold token_types. simpl. auto.
  - reflexivity.
Defined.
